(** * Attitude-estimation filter bank of [examples/sim.py]

    A shallow embedding of the three filter derivations of the example
    ([mrp_derivation], [quat_derivation], [mekf_derivation]) and of the
    [AttitudeEstimator] that drives them, followed by the properties
    proved about them.

    The derivations build casadi [SX] expressions, whose meaning is a
    real-valued formula: numbers are modelled as real numbers [R], a
    column vector as a list of reals and a matrix as the list of its rows.
    Rounding and random draws are not part of the model.  The shapes of
    all vectors and matrices are fixed by the signatures of the casadi
    [Function]s; a read outside a vector yields [0] here, which a
    well-shaped call never does.

    The modules [pyecca2.rotation] and [pyecca2.util] that the example
    imports are not part of the example file: the functions taken from
    them are modelled from the specification and marked as such.  The
    simulator is modelled by one turn of its loop, with the random draws
    of the turn as arguments; the scheduler, the logger and the plots are
    left out. *)

From Stdlib Require Import Reals List Lra Lia Psatz.
Import ListNotations.
Local Open Scope R_scope.

(* ================================================================== *)
(** ** Vectors and matrices *)
(* ================================================================== *)

Definition vec := list R.
Definition mat := list (list R).

Fixpoint zipWith {A B C : Type} (f : A -> B -> C) (a : list A) (b : list B)
  : list C :=
  match a, b with
  | x :: a', y :: b' => f x y :: zipWith f a' b'
  | _, _ => []
  end.

(** [imap f i l] maps [f] over [l] together with the position of each
    element, counted from [i]. *)
Fixpoint imap {A B : Type} (f : nat -> A -> B) (i : nat) (l : list A)
  : list B :=
  match l with
  | [] => []
  | a :: l' => f i a :: imap f (S i) l'
  end.

(** [v[i]] and [M[i, j]]. *)
Definition el (v : vec) (i : nat) : R := nth i v 0.
Definition el2 (M : mat) (i j : nat) : R := nth j (nth i M []) 0.

(** [v[a:b]], a column of [b - a] entries. *)
Definition slice (v : vec) (a b : nat) : vec := map (el v) (seq a (b - a)).

(** [v[:n] = block], the effect of the slice assignment. *)
Definition set_head (v : vec) (n : nat) (block : vec) : vec :=
  block ++ skipn n v.

Definition zeros (n : nat) : vec := repeat 0 n.
Definition vertcat (a b : vec) : vec := a ++ b.

Definition vadd (a b : vec) : vec := zipWith Rplus a b.
Definition vsub (a b : vec) : vec := zipWith Rminus a b.
Definition vneg (a : vec) : vec := map Ropp a.
Definition vscale (c : R) (a : vec) : vec := map (Rmult c) a.

Definition dot (a b : vec) : R := fold_right Rplus 0 (zipWith Rmult a b).
Definition norm_2 (a : vec) : R := sqrt (dot a a).

Definition madd (A B : mat) : mat := zipWith vadd A B.
Definition msub (A B : mat) : mat := zipWith vsub A B.
Definition mneg (A : mat) : mat := map vneg A.
Definition mscale (c : R) (A : mat) : mat := map (vscale c) A.

Definition mzeros (n m : nat) : mat := repeat (zeros m) n.

(** [ca.diag] of a column. *)
Definition diag (v : vec) : mat :=
  imap (fun i a => imap (fun j _ => if Nat.eqb j i then a else 0) 0%nat v)
       0%nat v.

Definition eye (n : nat) : mat := diag (repeat 1 n).

Definition ncols (A : mat) : nat :=
  match A with
  | [] => 0%nat
  | r :: _ => length r
  end.

Definition column (A : mat) (j : nat) : vec := map (fun r => el r j) A.

Definition transpose (A : mat) : mat := map (column A) (seq 0 (ncols A)).

(** [ca.mtimes] of a matrix with a column, and of two matrices. *)
Definition mtimes_v (A : mat) (v : vec) : vec := map (fun r => dot r v) A.

Definition mtimes (A B : mat) : mat :=
  map (fun r => map (fun c => dot r c) (transpose B)) A.

(** [ca.tril]: the entries above the diagonal are dropped. *)
Definition tril (A : mat) : mat :=
  imap (fun i r => imap (fun j a => if Nat.leb j i then a else 0) 0%nat r)
       0%nat A.

(** Block matrix [[A, B], [C, D]]. *)
Definition blockcat (A B C D : mat) : mat :=
  zipWith (@app R) A B ++ zipWith (@app R) C D.

Definition outer (a b : vec) : mat :=
  map (fun x => map (fun y => x * y) b) a.

(** The cross-product matrix of a 3-vector. *)
Definition wedge (v : vec) : mat :=
  [ [ 0        ; - el v 2 ; el v 1   ];
    [ el v 2   ; 0        ; - el v 0 ];
    [ - el v 1 ; el v 0   ; 0        ] ].

(** The unit row [e_i] of length [n]. *)
Definition unit_row (n i : nat) : vec :=
  map (fun j => if Nat.eqb j i then 1 else 0) (seq 0 n).

(** [ca.inv] of a matrix with lower-triangular sparsity: the system
    [W X = I] is solved by forward substitution, one row of [X] after the
    other; [acc] holds the rows already found. *)
Fixpoint inv_rows (n i : nat) (rows : list vec) (acc : list vec)
  : list vec :=
  match rows with
  | [] => []
  | w :: rest =>
      let lin := fold_right vadd (zeros n)
                   (zipWith (fun c xk => vscale c xk) w acc) in
      let xi := vscale (/ el w i) (vsub (unit_row n i) lin) in
      xi :: inv_rows n (S i) rest (acc ++ [xi])
  end.

Definition inv (W : mat) : mat := inv_rows (length W) 0 W [].

(** ** Values that support [+] and scaling, as the integrator needs *)

Class Linear (A : Type) := {
  ladd : A -> A -> A;
  lscale : R -> A -> A
}.

#[export] Instance Linear_R : Linear R :=
  {| ladd := Rplus; lscale := Rmult |}.

#[export] Instance Linear_list {A : Type} `{Linear A} : Linear (list A) :=
  {| ladd := zipWith ladd; lscale := fun c => map (lscale c) |}.

(* ================================================================== *)
(** ** [pyecca2.util] *)
(* ================================================================== *)

(** Modelled from the spec: [util.rk4] is not part of the example file.
    "given f(t,y), dt, compute four stage derivatives at t, t+dt/2
    (twice), t+dt, combine with weights 1/6,1/3,1/3,1/6". *)
Definition rk4 {A : Type} `{Linear A}
  (f : R -> A -> A) (t : R) (y : A) (h : R) : A :=
  let k1 := f t y in
  let k2 := f (t + h / 2) (ladd y (lscale (h / 2) k1)) in
  let k3 := f (t + h / 2) (ladd y (lscale (h / 2) k2)) in
  let k4 := f (t + h) (ladd y (lscale h k3)) in
  ladd y (lscale h
            (ladd (ladd (lscale (1 / 6) k1) (lscale (1 / 3) k2))
                  (ladd (lscale (1 / 3) k3) (lscale (1 / 6) k4)))).

(** Modelled from the spec: [util.sqrt_covariance_predict] is not part of
    the example file.  "W' = tril(F W + 0.5 Q W^-T)"; the projection
    [tril] is applied by the caller. *)
Definition sqrt_covariance_predict (W F Q : mat) : mat :=
  madd (mtimes F W) (mtimes (mscale (1 / 2) Q) (transpose (inv W))).

(* ================================================================== *)
(** ** [pyecca2.rotation] *)
(* ================================================================== *)

(** The truth value of [ca.logic_not]. *)
Definition logic_not (a : R) : R := if Req_dec_T a 0 then 1 else 0.

Module Mrp.

(** Modelled from the spec: [Mrp.shadow] is not part of the example
    file.  "the shadow MRP (r * (-1/|r|^2) transform)"; the fourth entry
    is the shadow flag, which the transform toggles. *)
Definition shadow (r : vec) : vec :=
  let a := slice r 0 3 in
  let n_sq := dot a a in
  vertcat (vscale (- 1 / n_sq) a) [logic_not (el r 3)].

(** Modelled from the spec: [Mrp.shadow_if_required] is not part of the
    example file.  "returns the shadow MRP when |r| > 1, else r
    unchanged". *)
Definition shadow_if_required (r : vec) : vec :=
  if Rlt_dec 1 (norm_2 (slice r 0 3)) then shadow r else r.

(** Modelled from the spec: [Mrp.derivative] is not part of the example
    file.  The kinematic derivative of an MRP under the angular rate
    [w]: [r' = 1/4 ((1 - |r|^2) I + 2 [r]x + 2 r r^T) w]; the shadow
    flag is constant. *)
Definition derivative (r w : vec) : vec :=
  let a := slice r 0 3 in
  let n_sq := dot a a in
  let B := mscale (1 / 4)
             (madd (madd (mscale (1 - n_sq) (eye 3)) (mscale 2 (wedge a)))
                   (mscale 2 (outer a a))) in
  vertcat (mtimes_v B (slice w 0 3)) [0].

End Mrp.

Module Quat.

(** Modelled from the spec: [Quat.derivative] is not part of the example
    file.  "standard quaternion kinematic equation":
    [q' = 1/2 q * (0, w)]. *)
Definition derivative (q w : vec) : vec :=
  let q0 := el q 0 in let q1 := el q 1 in
  let q2 := el q 2 in let q3 := el q 3 in
  let w0 := el w 0 in let w1 := el w 1 in let w2 := el w 2 in
  vscale (1 / 2)
    [ - q1 * w0 - q2 * w1 - q3 * w2;
      q0 * w0 + q2 * w2 - q3 * w1;
      q0 * w1 - q1 * w2 + q3 * w0;
      q0 * w2 + q1 * w1 - q2 * w0 ].

(** Modelled from the spec: [Quat.from_mrp] is not part of the example
    file.  "cross-representation conversion": the quaternion of an MRP,
    negated on the shadow set. *)
Definition from_mrp (r : vec) : vec :=
  let a := slice r 0 3 in
  let n_sq := dot a a in
  let den := 1 + n_sq in
  let q := (1 - n_sq) / den :: vscale (2 / den) a in
  if Req_dec_T (el r 3) 0 then q else vneg q.

End Quat.

Module Dcm.

(** Modelled from the spec: [Dcm.from_quat] is not part of the example
    file.  "rotation-matrix conversions". *)
Definition from_quat (q : vec) : mat :=
  let a := el q 0 in let b := el q 1 in
  let c := el q 2 in let d := el q 3 in
  [ [ a*a + b*b - c*c - d*d ; 2 * (b*c - a*d)       ; 2 * (b*d + a*c) ];
    [ 2 * (b*c + a*d)       ; a*a - b*b + c*c - d*d ; 2 * (c*d - a*b) ];
    [ 2 * (b*d - a*c)       ; 2 * (c*d + a*b)       ; a*a - b*b - c*c + d*d ] ].

(** Modelled from the spec: [Dcm.from_mrp] is not part of the example
    file.  "rotation-matrix conversions". *)
Definition from_mrp (r : vec) : mat := from_quat (Quat.from_mrp r).

End Dcm.

Module SO3.

(** Modelled from the spec: [SO3.exp] is not part of the example file.
    "exponential map from a 3-vector Lie-algebra element to a rotation
    matrix": [I + sin(th)/th K + (1 - cos(th))/th^2 K^2] with
    [th = |v|] and [K = [v]x]. *)
Definition exp (v : vec) : mat :=
  let theta := norm_2 (slice v 0 3) in
  let K := wedge v in
  madd (madd (eye 3) (mscale (sin theta / theta) K))
       (mscale ((1 - cos theta) / (theta * theta)) (mtimes K K)).

End SO3.

(* ================================================================== *)
(** ** The three derivations of [examples/sim.py] *)
(* ================================================================== *)

(** The dictionary of casadi [Function]s a derivation returns. *)
Record Eqs := {
  predict : R -> vec -> mat -> vec -> R -> R -> R -> vec * mat;
  simulate : R -> vec -> vec -> vec -> vec -> R -> vec;
  get_state : vec -> vec * vec;
  constants : vec * mat
}.

(** Right-invariant filter with modified Rodrigues parameters.  The state
    [x] holds the MRP [(3)], its shadow flag [(1)] and the gyro bias
    [(3)]. *)
Module mrp_derivation.

Definition std_gyro_rw (sn_gyro_rw dt : R) : R := sn_gyro_rw / sqrt dt.

Definition Q (std_gyro sn_gyro_rw dt : R) : mat :=
  let s := std_gyro_rw sn_gyro_rw dt in
  diag (map (fun a => a ^ 2) [std_gyro; std_gyro; std_gyro; s; s; s]).

Definition r (x : vec) : vec := slice x 0 4.
Definition b_g (x : vec) : vec := slice x 4 7.

Definition xdot (x omega w_g w_b : vec) : vec :=
  vertcat (Mrp.derivative (r x) (vadd (vsub omega (b_g x)) w_g)) w_b.

Definition f_xdot (t : R) (x omega w_g w_b : vec) : vec :=
  xdot x omega w_g w_b.

(** State propagation with noise. *)
Definition x1_sim (t : R) (x omega w_g w_b : vec) (dt : R) : vec :=
  let y := rk4 (fun t x => f_xdot t x omega w_g w_b) t x dt in
  set_head y 4 (Mrp.shadow_if_required (slice y 0 4)).

(** State propagation without noise. *)
Definition x1 (t : R) (x omega : vec) (dt : R) : vec :=
  let y := rk4 (fun t x => f_xdot t x omega (zeros 3) (zeros 3)) t x dt in
  set_head y 4 (Mrp.shadow_if_required (slice y 0 4)).

Definition q (x : vec) : vec := Quat.from_mrp (slice x 0 4).

Definition n_e : nat := 6.

(** Error dynamics. *)
Definition f (omega eta x w_b : vec) : vec :=
  vertcat (vneg (mtimes_v (Dcm.from_mrp (r x)) (slice eta 3 6))) w_b.

(** Linearized error dynamics: the Jacobian of [f] in [eta], at
    [eta = 0]. *)
Definition F (omega x : vec) : mat :=
  blockcat (mzeros 3 3) (mneg (Dcm.from_mrp (r x)))
           (mzeros 3 3) (mzeros 3 3).

(** Covariance propagation.  [W] is declared with lower-triangular
    sparsity: a factor handed to [predict] has zeros above its diagonal. *)
Definition f_W_dot_lt (x : vec) (W : mat) (std_gyro sn_gyro_rw : R)
  (omega : vec) (dt : R) : mat :=
  tril (sqrt_covariance_predict W (F omega x) (Q std_gyro sn_gyro_rw dt)).

Definition W1 (t : R) (x : vec) (W : mat) (omega : vec)
  (std_gyro sn_gyro_rw dt : R) : mat :=
  rk4 (fun t y => f_W_dot_lt x y std_gyro sn_gyro_rw omega dt) t W dt.

(** Initial state. *)
Definition x0 : vec := zeros 7.
Definition W0 : mat := mscale 1e-3 (eye n_e).

Definition eqs : Eqs :=
  {| predict := fun t x W omega std_gyro sn_gyro_rw dt =>
       (x1 t x omega dt, W1 t x W omega std_gyro sn_gyro_rw dt);
     simulate := fun t x omega w_g w_b dt => x1_sim t x omega w_g w_b dt;
     get_state := fun x => (q x, b_g x);
     constants := (x0, W0) |}.

End mrp_derivation.

Definition mrp_eqs : Eqs := mrp_derivation.eqs.

(** Right-invariant filter with quaternions.  The state [x] holds the
    quaternion [(4)] and the gyro bias [(3)]. *)
Module quat_derivation.

Definition std_gyro_rw (sn_gyro_rw dt : R) : R := sn_gyro_rw / sqrt dt.

Definition Q (std_gyro sn_gyro_rw dt : R) : mat :=
  let s := std_gyro_rw sn_gyro_rw dt in
  diag (map (fun a => a ^ 2) [std_gyro; std_gyro; std_gyro; s; s; s]).

Definition q (x : vec) : vec := slice x 0 4.
Definition b_g (x : vec) : vec := slice x 4 7.

Definition xdot (x omega w_g w_b : vec) : vec :=
  vertcat (Quat.derivative (q x) (vadd (vsub omega (b_g x)) w_g)) w_b.

Definition f_xdot (t : R) (x omega w_g w_b : vec) : vec :=
  xdot x omega w_g w_b.

(** State propagation with noise. *)
Definition x1_sim (t : R) (x omega w_g w_b : vec) (dt : R) : vec :=
  rk4 (fun t x => f_xdot t x omega w_g w_b) t x dt.

(** State propagation without noise. *)
Definition x1 (t : R) (x omega : vec) (dt : R) : vec :=
  rk4 (fun t x => f_xdot t x omega (zeros 3) (zeros 3)) t x dt.

Definition n_e : nat := 6.

(** Error dynamics. *)
Definition f (omega eta x w_b : vec) : vec :=
  vertcat (vneg (mtimes_v (Dcm.from_quat (q x)) (slice eta 3 6))) w_b.

(** Linearized error dynamics: the Jacobian of [f] in [eta], at
    [eta = 0]. *)
Definition F (omega x : vec) : mat :=
  blockcat (mzeros 3 3) (mneg (Dcm.from_quat (q x)))
           (mzeros 3 3) (mzeros 3 3).

(** Covariance propagation.  [W] is declared with lower-triangular
    sparsity: a factor handed to [predict] has zeros above its diagonal. *)
Definition f_W_dot_lt (x : vec) (W : mat) (std_gyro sn_gyro_rw : R)
  (omega : vec) (dt : R) : mat :=
  tril (sqrt_covariance_predict W (F omega x) (Q std_gyro sn_gyro_rw dt)).

Definition W1 (t : R) (x : vec) (W : mat) (omega : vec)
  (std_gyro sn_gyro_rw dt : R) : mat :=
  rk4 (fun t y => f_W_dot_lt x y std_gyro sn_gyro_rw omega dt) t W dt.

(** Initial state. *)
Definition x0 : vec := [1; 0; 0; 0; 0; 0; 0].
Definition W0 : mat := mscale 1e-3 (eye n_e).

(** The [simulate] entry is built on [x1], not on [x1_sim]. *)
Definition eqs : Eqs :=
  {| predict := fun t x W omega std_gyro sn_gyro_rw dt =>
       (x1 t x omega dt, W1 t x W omega std_gyro sn_gyro_rw dt);
     simulate := fun t x omega w_g w_b dt => x1 t x omega dt;
     get_state := fun x => (q x, b_g x);
     constants := (x0, W0) |}.

End quat_derivation.

Definition quat_eqs : Eqs := quat_derivation.eqs.

(** Multiplicative Kalman filter with quaternions.  The state [x] holds
    the quaternion [(4)] and the gyro bias [(3)]. *)
Module mekf_derivation.

Definition std_gyro_rw (sn_gyro_rw dt : R) : R := sn_gyro_rw / sqrt dt.

Definition Q (std_gyro sn_gyro_rw dt : R) : mat :=
  let s := std_gyro_rw sn_gyro_rw dt in
  diag (map (fun a => a ^ 2) [std_gyro; std_gyro; std_gyro; s; s; s]).

Definition q (x : vec) : vec := slice x 0 4.
Definition b_g (x : vec) : vec := slice x 4 7.

Definition xdot (x omega w_g w_b : vec) : vec :=
  vertcat (Quat.derivative (q x) (vadd (vsub omega (b_g x)) w_g)) w_b.

Definition f_xdot (t : R) (x omega w_g w_b : vec) : vec :=
  xdot x omega w_g w_b.

(** State propagation with noise. *)
Definition x1_sim (t : R) (x omega w_g w_b : vec) (dt : R) : vec :=
  rk4 (fun t x => f_xdot t x omega w_g w_b) t x dt.

(** State propagation without noise. *)
Definition x1 (t : R) (x omega : vec) (dt : R) : vec :=
  rk4 (fun t x => f_xdot t x omega (zeros 3) (zeros 3)) t x dt.

Definition n_e : nat := 6.

Definition eta_r (eta : vec) : vec := slice eta 0 3.
Definition eta_b (eta : vec) : vec := slice eta 3 6.

(** Error dynamics. *)
Definition eta_R (eta : vec) : mat := SO3.exp (eta_r eta).

Definition f (omega eta x w_b : vec) : vec :=
  vertcat
    (vsub (vneg (mtimes_v (msub (eye 3) (eta_R eta)) (vsub omega (b_g x))))
          (mtimes_v (eta_R eta) (eta_b eta)))
    w_b.

(** Linearized error dynamics: the Jacobian of [f] in [eta], at
    [eta = 0]. *)
Definition F (omega x : vec) : mat :=
  blockcat (mneg (wedge (vsub omega (b_g x)))) (mneg (eye 3))
           (mzeros 3 3) (mzeros 3 3).

(** Covariance propagation.  [W] is declared with lower-triangular
    sparsity: a factor handed to [predict] has zeros above its diagonal. *)
Definition f_W_dot_lt (x : vec) (W : mat) (std_gyro sn_gyro_rw : R)
  (omega : vec) (dt : R) : mat :=
  tril (sqrt_covariance_predict W (F omega x) (Q std_gyro sn_gyro_rw dt)).

Definition W1 (t : R) (x : vec) (W : mat) (omega : vec)
  (std_gyro sn_gyro_rw dt : R) : mat :=
  rk4 (fun t y => f_W_dot_lt x y std_gyro sn_gyro_rw omega dt) t W dt.

(** Initial state. *)
Definition x0 : vec := [1; 0; 0; 0; 0; 0; 0].
Definition W0 : mat := mscale 1e-3 (eye n_e).

(** The [simulate] entry is built on [x1], not on [x1_sim]. *)
Definition eqs : Eqs :=
  {| predict := fun t x W omega std_gyro sn_gyro_rw dt =>
       (x1 t x omega dt, W1 t x W omega std_gyro sn_gyro_rw dt);
     simulate := fun t x omega w_g w_b dt => x1 t x omega dt;
     get_state := fun x => (q x, b_g x);
     constants := (x0, W0) |}.

End mekf_derivation.

Definition mekf_eqs : Eqs := mekf_derivation.eqs.

(* ================================================================== *)
(** ** [AttitudeEstimator] *)
(* ================================================================== *)

Record Imu := { imu_time : R; imu_gyro : vec }.

Record VehicleState := {
  vs_time : R; vs_q : vec; vs_b : vec; vs_omega : vec
}.

Record EstimatorStatus := {
  es_time : R; es_n_x : nat; es_x : vec; es_W : vec; es_elapsed : R
}.

(** What one callback publishes, in order: on [<name>_state], then on
    [<name>_status]. *)
Inductive Published :=
| on_state (m : VehicleState)
| on_status (m : EstimatorStatus).

Record AttitudeEstimator := {
  est_eqs : Eqs;
  est_x : vec;
  est_W : mat;
  n_x : nat;
  n_e : nat;
  t_last_imu : R
}.

(** [AttitudeEstimator.__init__]. *)
Definition AttitudeEstimator_init (eqs : Eqs) : AttitudeEstimator :=
  {| est_eqs := eqs;
     est_x := fst (constants eqs);
     est_W := snd (constants eqs);
     n_x := length (fst (constants eqs));
     n_e := length (snd (constants eqs));
     t_last_imu := 0 |}.

(** The step handed to [predict]: [dt = t - t_last_imu], replaced by
    [1.0/200] when [dt <= 0]. *)
Definition compute_dt (t t_last : R) : R :=
  let dt := t - t_last in
  if Rle_dec dt 0 then 1 / 200 else dt.

Definition std_gyro : R := 1e-2.
Definition sn_gyro_rw : R := 1e-2.

(** [AttitudeEstimator.imu_callback].  [start] and [stop] are the two
    readings of the processor clock around the estimate.  The callback
    returns the estimator after the message and what it has published;
    the publishers, the subscribers and the (empty) parameter list of the
    estimator are left out. *)
Definition imu_callback (self : AttitudeEstimator) (msg : Imu)
  (start stop : R) : AttitudeEstimator * list Published :=
  let t := imu_time msg in
  let dt := compute_dt t (t_last_imu self) in
  let omega := imu_gyro msg in
  let xW := predict (est_eqs self) t (est_x self) (est_W self) omega
              std_gyro sn_gyro_rw dt in
  let qb := get_state (est_eqs self) (fst xW) in
  let elapsed := stop - start in
  let self' :=
    {| est_eqs := est_eqs self;
       est_x := fst xW;
       est_W := snd xW;
       n_x := n_x self;
       n_e := n_e self;
       t_last_imu := t |} in
  let W_vect := map (fun i => el2 (snd xW) i i) (seq 0 (n_e self)) in
  (self',
   [ on_state {| vs_time := t; vs_q := fst qb; vs_b := snd qb;
                 vs_omega := omega |};
     on_status {| es_time := t; es_n_x := n_x self; es_x := fst xW;
                  es_W := W_vect; es_elapsed := elapsed |} ]).

(** Repeated prediction with a constant rate: [n] calls of [predict], the
    time advancing by [dt] from one call to the next. *)
Fixpoint iterate_predict (eqs : Eqs) (n : nat) (t : R) (xW : vec * mat)
  (omega : vec) (std_gyro sn_gyro_rw dt : R) : vec * mat :=
  match n with
  | O => xW
  | S n' =>
      iterate_predict eqs n' (t + dt)
        (predict eqs t (fst xW) (snd xW) omega std_gyro sn_gyro_rw dt)
        omega std_gyro sn_gyro_rw dt
  end.

(* ================================================================== *)
(** ** Properties of a covariance factor, and the inputs of the examples *)
(* ================================================================== *)

(** Every entry above the diagonal is zero. *)
Definition strictly_upper_zero (M : mat) : Prop :=
  forall i j : nat, (i < j)%nat -> el2 M i j = 0.

(** Every diagonal entry is non-negative. *)
Definition diag_nonneg (M : mat) : Prop :=
  forall i : nat, (i < length M)%nat -> 0 <= el2 M i i.

(** A lower-triangular factor with a non-negative diagonal. *)
Definition triangular_factor (M : mat) : Prop :=
  strictly_upper_zero M /\ diag_nonneg M.

(** [n] rows of [m] entries. *)
Definition has_shape (M : mat) (n m : nat) : Prop :=
  length M = n /\ Forall (fun r => length r = m) M.

(** The initial factor [1e-3 I] with one more entry, [W[3, 0] = 1]: the
    error of the first bias component is correlated with the error of the
    first rotation component.  [a] stands for the entry [W[0, 0]]. *)
Definition W_correlated_at (a : R) : mat :=
  [ [a;    0;    0;    0;    0;    0   ];
    [0;    1e-3; 0;    0;    0;    0   ];
    [0;    0;    1e-3; 0;    0;    0   ];
    [1;    0;    0;    1e-3; 0;    0   ];
    [0;    0;    0;    0;    1e-3; 0   ];
    [0;    0;    0;    0;    0;    1e-3] ].

Definition W_correlated : mat := W_correlated_at 1e-3.

(** The initial factor [1e-3 I] with [c] at [(1, 1)] and [e] at [(2, 1)]:
    the two entries that a rate about the first axis couples in the
    MEKF. *)
Definition W_spin_at (c e : R) : mat :=
  [ [1e-3; 0; 0;    0;    0;    0   ];
    [0;    c; 0;    0;    0;    0   ];
    [0;    e; 1e-3; 0;    0;    0   ];
    [0;    0; 0;    1e-3; 0;    0   ];
    [0;    0; 0;    0;    1e-3; 0   ];
    [0;    0; 0;    0;    0;    1e-3] ].

(** The derivative of such a factor: [p] at [(1, 1)], [q] at [(2, 1)]. *)
Definition W_spin_dot (p q : R) : mat :=
  [ [0; 0; 0; 0; 0; 0];
    [0; p; 0; 0; 0; 0];
    [0; q; 0; 0; 0; 0];
    [0; 0; 0; 0; 0; 0];
    [0; 0; 0; 0; 0; 0];
    [0; 0; 0; 0; 0; 0] ].

(** No drift without excitation: from the initial state, with no rate and
    no noise, [n] predictions at the step [dt] report the quaternion
    [(1,0,0,0)] within [1e-9] and the bias [(0,0,0)]. *)
Definition no_drift (eqs : Eqs) (n : nat) (dt : R) : Prop :=
  let xW := iterate_predict eqs n 0 (constants eqs) [0; 0; 0] 0 0 dt in
  let qb := get_state eqs (fst xW) in
  (forall i : nat, Rabs (el (fst qb) i - el [1; 0; 0; 0] i) <= 1e-9) /\
  snd qb = [0; 0; 0].

(** The constants of a derivation: a state of 7 numbers that reads as
    the identity rotation with zero gyro bias, and the 6x6 factor
    [1e-3 I]. *)
Definition identity_start (eqs : Eqs) : Prop :=
  let x0 := fst (constants eqs) in
  let W0 := snd (constants eqs) in
  length x0 = 7%nat /\
  get_state eqs x0 = ([1; 0; 0; 0], [0; 0; 0]) /\
  has_shape W0 6 6 /\
  (forall i j : nat, (i < 6)%nat -> (j < 6)%nat ->
     el2 W0 i j = (if Nat.eqb i j then 1e-3 else 0)).

(** [diag(a, a, a, b, b, b)]. *)
Definition diag_3_3 (a b : R) : mat :=
  [ [a; 0; 0; 0; 0; 0];
    [0; a; 0; 0; 0; 0];
    [0; 0; a; 0; 0; 0];
    [0; 0; 0; b; 0; 0];
    [0; 0; 0; 0; b; 0];
    [0; 0; 0; 0; 0; b] ].

(** [J] is the Jacobian of [g] at [eta = 0]: the derivative at [0] of the
    output [i] along the input [j] is [J[i, j]], for the [n] outputs and
    inputs. *)
Definition jacobian_at_zero (g : vec -> vec) (J : mat) (n : nat) : Prop :=
  forall i j : nat, (i < n)%nat -> (j < n)%nat ->
    derivable_pt_lim (fun s => el (g (vscale s (unit_row n j))) i) 0
      (el2 J i j).

(* ================================================================== *)
(** ** [Simulator] and the estimator over a stream of messages *)
(* ================================================================== *)

(** The angular rate that [Simulator.run] synthesizes at the time [t]. *)
Definition Simulator_omega (t : R) : vec :=
  [ 10 * (1 + sin (2 * PI * 0.1 * t + 1));
    10 * (1 + sin (2 * PI * 0.2 * t + 2));
    10 * (1 + sin (2 * PI * 0.3 * t + 3)) ].

(** One turn of the loop of [Simulator.run], at the time [t] with the
    truth state [x].  [w_gyro] and [dt] are the values of the parameters
    [sim/w_gyro] and [sim/dt]; [n_g], [n_b] and [n_imu] are the three
    draws of [np.random.randn(3)], in the order of the source.  The turn
    returns the time of the next turn, the new truth state, and the two
    messages it publishes, on [sim_state] and on [imu]. *)
Definition Simulator_run_cycle (w_gyro dt : R) (t : R) (x : vec)
  (n_g n_b n_imu : vec) : (R * vec) * (VehicleState * Imu) :=
  let omega := Simulator_omega t in
  let w_g := vscale 1e-3 n_g in
  let w_b := vscale 1e-3 n_b in
  let x' := simulate mrp_eqs t x omega w_g w_b dt in
  let qb := get_state mrp_eqs x' in
  ((t + dt, x'),
   ({| vs_time := t; vs_q := fst qb; vs_b := snd qb; vs_omega := omega |},
    {| imu_time := t; imu_gyro := vadd omega (vscale w_gyro n_imu) |})).

(** An estimator that receives a stream of [Imu] messages, each with the
    two clock readings of its callback: the callbacks run one after the
    other, and what they publish is collected in order. *)
Fixpoint feed (self : AttitudeEstimator) (msgs : list (Imu * (R * R)))
  : AttitudeEstimator * list Published :=
  match msgs with
  | [] => (self, [])
  | (msg, (start, stop)) :: rest =>
      let r := imu_callback self msg start stop in
      let r' := feed (fst r) rest in
      (fst r', snd r ++ snd r')
  end.

(** The time of the last message of a stream, [t0] when it is empty. *)
Definition last_time (t0 : R) (msgs : list (Imu * (R * R))) : R :=
  fold_left (fun _ m => imu_time (fst m)) msgs t0.

(** The shape of an estimator bound to one of the three derivations: a
    state of [n_x = 7] numbers and a 6x6 factor with zeros above the
    diagonal. *)
Definition estimator_ok (self : AttitudeEstimator) : Prop :=
  (est_eqs self = mrp_eqs \/ est_eqs self = quat_eqs \/
   est_eqs self = mekf_eqs) /\
  n_x self = 7%nat /\ n_e self = 6%nat /\
  length (est_x self) = 7%nat /\
  has_shape (est_W self) 6 6 /\
  strictly_upper_zero (est_W self).

(** The shape of a published message: a quaternion of 4 and a bias of 3
    numbers on [<name>_state]; [n_x = 7], a state of 7 and a diagonal of 6
    numbers on [<name>_status]. *)
Definition published_ok (p : Published) : Prop :=
  match p with
  | on_state m => length (vs_q m) = 4%nat /\ length (vs_b m) = 3%nat
  | on_status m =>
      es_n_x m = 7%nat /\ length (es_x m) = 7%nat /\
      length (es_W m) = 6%nat
  end.

(** A message on [<name>_state] that reports the identity rotation and a
    zero bias. *)
Definition reports_identity (p : Published) : Prop :=
  match p with
  | on_state m => vs_q m = [1; 0; 0; 0] /\ vs_b m = [0; 0; 0]
  | on_status _ => True
  end.

(** The derivative of one diagonal entry [d] of the factor, under the
    process-noise variance [q] of that entry. *)
Definition factor_rate (q : R) (t d : R) : R := 1 / 2 * q / d.

(** A diagonal 6x6 factor with a positive diagonal. *)
Definition positive_diagonal (W : mat) : Prop :=
  exists d0 d1 d2 d3 d4 d5 : R,
    W = diag [d0; d1; d2; d3; d4; d5] /\
    0 < d0 /\ 0 < d1 /\ 0 < d2 /\ 0 < d3 /\ 0 < d4 /\ 0 < d5.

(** A published message that carries a zero bias: the bias of
    [<name>_state], the last three entries of the state of
    [<name>_status]. *)
Definition reports_zero_bias (p : Published) : Prop :=
  match p with
  | on_state m => vs_b m = [0; 0; 0]
  | on_status m => slice (es_x m) 4 7 = [0; 0; 0]
  end.

(** A published message of the MRP estimator: a quaternion of norm one
    on [<name>_state], an MRP inside the unit ball on [<name>_status]. *)
Definition reports_unit_quaternion (p : Published) : Prop :=
  match p with
  | on_state m => norm_2 (vs_q m) = 1
  | on_status m => norm_2 (slice (es_x m) 0 3) <= 1
  end.

(** Two published messages that agree on everything except the diagonal
    of the factor and the elapsed processor time. *)
Definition same_report (p p' : Published) : Prop :=
  match p, p' with
  | on_state m, on_state m' => m = m'
  | on_status m, on_status m' =>
      es_time m = es_time m' /\ es_n_x m = es_n_x m' /\ es_x m = es_x m'
  | _, _ => False
  end.

(** A stream of messages, received by an estimator whose last message
    came at [t_last], in which every gyro reading has three entries and
    turns by at most [4 sqrt 2] rad over the step that [imu_callback]
    computes for it. *)
Fixpoint slow_turns (t_last : R) (msgs : list (Imu * (R * R))) : Prop :=
  match msgs with
  | [] => True
  | (msg, _) :: rest =>
      length (imu_gyro msg) = 3%nat /\
      dot (imu_gyro msg) (imu_gyro msg)
        * compute_dt (imu_time msg) t_last ^ 2 <= 32 /\
      slow_turns (imu_time msg) rest
  end.

(** The squared norm of the quaternion of a state. *)
Definition quat_norm2 (x : vec) : R := dot (slice x 0 4) (slice x 0 4).

(* ================================================================== *)
(** ** Tactics *)
(* ================================================================== *)

(** Carries out the reads [el v i] of a list given entry by entry. *)
Ltac el_red :=
  repeat match goal with
         | |- context [el (?a :: ?l) O] => change (el (a :: l) O) with a
         | |- context [el (?a :: ?l) (S ?k)] =>
             change (el (a :: l) (S k)) with (el l k)
         | |- context [el [] ?k] => change (el [] k) with 0
         end.

(** Unfolds the linear algebra, leaving the reads [el v i] of an unknown
    [v] in place. *)
Ltac la_symb :=
  cbv [rk4 ladd lscale Linear_list Linear_R zipWith imap slice
       set_head zeros vertcat vadd vsub vneg vscale dot madd msub mneg
       mscale mzeros diag eye ncols column transpose mtimes_v mtimes tril
       blockcat outer wedge unit_row inv_rows inv sqrt_covariance_predict
       map app seq repeat skipn firstn fold_right length
       Nat.sub Nat.eqb Nat.leb Nat.add pow];
  el_red.

(** Unfolds the linear algebra on lists that are given entry by entry. *)
Ltac la_unfold :=
  cbv [rk4 ladd lscale Linear_list Linear_R zipWith imap slice el el2
       set_head zeros vertcat vadd vsub vneg vscale dot madd msub mneg
       mscale mzeros diag eye ncols column transpose mtimes_v mtimes tril
       blockcat outer wedge unit_row inv_rows inv sqrt_covariance_predict
       map app seq repeat nth skipn firstn fold_right length
       Nat.sub Nat.eqb Nat.leb Nat.add pow].

(** Splits an equation between two lists of the same shape into the
    equations between their entries. *)
Ltac list_eq :=
  repeat match goal with
         | |- _ :: _ = _ :: _ => apply f_equal2
         | |- @nil _ = @nil _ => reflexivity
         | |- (_, _) = (_, _) => apply f_equal2
         end.

(** The Jacobian of the MEKF error dynamics, entry by entry.  An output
    [i < 3] along a rotation input: [ax] gives the norm along that axis,
    [Hs] and [Hc] the values of [sin(th)/th] and [(1 - cos(th))/th^2]. *)
Ltac mekf_rotation_value ax Hs Hc :=
  let s := fresh "s" in
  let Ha := fresh "Ha" in
  let Hb := fresh "Hb" in
  intros s;
  unfold mekf_derivation.f, mekf_derivation.eta_R, mekf_derivation.eta_r,
    mekf_derivation.eta_b, mekf_derivation.b_g, SO3.exp;
  la_symb; rewrite ax;
  pose proof (Hs s) as Ha; pose proof (Hc s) as Hb;
  set (sin (Rabs s) / Rabs s) in *;
  set ((1 - cos (Rabs s)) / (Rabs s * Rabs s)) in *;
  rewrite <- Ha, <- Hb;
  solve [ring].

Ltac mekf_F_value :=
  unfold mekf_derivation.F, mekf_derivation.b_g;
  la_symb; cbv [el2 nth];
  solve [ring].

(** Any output along a bias input, and the bias outputs: [Haff] says that
    an affine function has its slope for derivative. *)
Ltac mekf_affine_entry Haff :=
  apply Haff;
  let s := fresh "s" in
  intros s;
  unfold mekf_derivation.f, mekf_derivation.eta_R, mekf_derivation.eta_r,
    mekf_derivation.eta_b, mekf_derivation.F, mekf_derivation.b_g, SO3.exp;
  la_symb; cbv [el2 nth]; solve [ring].

(* ================================================================== *)
(** ** Lists, entry by entry *)
(* ================================================================== *)

Lemma nth_zipWith_or {A B C : Type} (f : A -> B -> C)
  (a : list A) (b : list B) (i : nat) (da : A) (db : B) (dc : C) :
  nth i (zipWith f a b) dc = f (nth i a da) (nth i b db) \/
  nth i (zipWith f a b) dc = dc.
Proof.
  revert b i.
  induction a as [|x a IH]; intros [|y b] [|i]; simpl; auto.
Qed.

Lemma nth_imap_or {A B : Type} (f : nat -> A -> B)
  (l : list A) (s k : nat) (da : A) (db : B) :
  nth k (imap f s l) db = f (s + k)%nat (nth k l da) \/
  nth k (imap f s l) db = db.
Proof.
  revert s k.
  induction l as [|a l IH]; intros s [|k]; simpl; auto.
  - left. now rewrite Nat.add_0_r.
  - rewrite <- plus_n_Sm. apply (IH (S s) k).
Qed.

Lemma el2_madd_or (A B : mat) (i j : nat) :
  el2 (madd A B) i j = el2 A i j + el2 B i j \/ el2 (madd A B) i j = 0.
Proof.
  unfold el2, madd.
  destruct (nth_zipWith_or vadd A B i [] [] []) as [E|E];
    unfold vec, mat in *; rewrite E.
  - unfold vadd. apply nth_zipWith_or.
  - right. now destruct j.
Qed.

Lemma el2_mscale (c : R) (A : mat) (i j : nat) :
  el2 (mscale c A) i j = c * el2 A i j.
Proof.
  unfold el2, mscale.
  change (@nil R) with (vscale c []) at 1.
  rewrite map_nth. unfold vscale.
  replace 0 with (c * 0) at 1 by ring.
  now rewrite map_nth.
Qed.

Lemma strictly_upper_zero_tril (A : mat) : strictly_upper_zero (tril A).
Proof.
  intros i j Hij. unfold el2, tril.
  destruct (nth_imap_or
              (fun i r => imap (fun j a => if Nat.leb j i then a else 0)
                            0%nat r) A 0 i [] []) as [E|E];
    unfold vec, mat in *; rewrite E.
  - destruct (nth_imap_or (fun j a => if Nat.leb j (0 + i) then a else 0)
                (nth i A []) 0 j 0 0) as [E'|E']; rewrite E'; auto.
    simpl. destruct (Nat.leb_spec j i); [lia | reflexivity].
  - now destruct j.
Qed.

Lemma strictly_upper_zero_madd (A B : mat) :
  strictly_upper_zero A -> strictly_upper_zero B ->
  strictly_upper_zero (madd A B).
Proof.
  intros HA HB i j Hij.
  destruct (el2_madd_or A B i j) as [E|E]; rewrite E; auto.
  rewrite (HA i j Hij), (HB i j Hij). ring.
Qed.

Lemma strictly_upper_zero_mscale (c : R) (A : mat) :
  strictly_upper_zero A -> strictly_upper_zero (mscale c A).
Proof.
  intros HA i j Hij. rewrite el2_mscale, (HA i j Hij). ring.
Qed.

(** One step of the integrator keeps the zeros above the diagonal when
    every stage derivative has them. *)
Lemma rk4_strictly_upper_zero (f : R -> mat -> mat) (t : R) (W : mat) (h : R) :
  (forall s Y, strictly_upper_zero (f s Y)) ->
  strictly_upper_zero W ->
  strictly_upper_zero (rk4 f t W h).
Proof.
  intros Hf HW. unfold rk4.
  change (@ladd mat _) with madd.
  change (@lscale mat _) with mscale.
  repeat first [ apply strictly_upper_zero_madd
               | apply strictly_upper_zero_mscale
               | apply Hf | exact HW ].
Qed.

(** The integrator, stage by stage. *)
Lemma rk4_stages {A : Type} `{Linear A} (f : R -> A -> A) (t : R) (y : A)
  (h : R) (k1 k2 k3 k4 y2 y3 y4 : A) :
  f t y = k1 ->
  ladd y (lscale (h / 2) k1) = y2 -> f (t + h / 2) y2 = k2 ->
  ladd y (lscale (h / 2) k2) = y3 -> f (t + h / 2) y3 = k3 ->
  ladd y (lscale h k3) = y4 -> f (t + h) y4 = k4 ->
  rk4 f t y h =
  ladd y (lscale h
            (ladd (ladd (lscale (1 / 6) k1) (lscale (1 / 3) k2))
                  (ladd (lscale (1 / 3) k3) (lscale (1 / 6) k4)))).
Proof.
  intros; subst; reflexivity.
Qed.

(* ================================================================== *)
(** ** The covariance factor after [predict] *)
(* ================================================================== *)

Lemma strictly_upper_zero_W_correlated_at (a : R) :
  strictly_upper_zero (W_correlated_at a).
Proof.
  intros i j Hij. unfold el2, W_correlated_at.
  do 6 (destruct i as [|i];
        [ do 6 (destruct j as [|j]; [first [lia | reflexivity]|]);
          simpl; now destruct j | ]).
  simpl. now destruct i, j.
Qed.

Lemma diag_nonneg_W_correlated : diag_nonneg W_correlated.
Proof.
  intros i Hi. unfold el2, W_correlated, W_correlated_at in *. simpl in Hi.
  do 6 (destruct i as [|i]; [simpl; lra|]). lia.
Qed.

(** With no process noise and the identity attitude, the derivative of a
    factor [W_correlated_at a] in the quaternion filter is [-1] at
    [(0, 0)] and zero elsewhere. *)
Lemma quat_W_dot_correlated (a h : R) :
  quat_derivation.f_W_dot_lt quat_derivation.x0 (W_correlated_at a) 0 0
    [0; 0; 0] h
  = [ [-1; 0; 0; 0; 0; 0];
      [0;  0; 0; 0; 0; 0];
      [0;  0; 0; 0; 0; 0];
      [0;  0; 0; 0; 0; 0];
      [0;  0; 0; 0; 0; 0];
      [0;  0; 0; 0; 0; 0] ].
Proof.
  unfold quat_derivation.f_W_dot_lt, quat_derivation.F, quat_derivation.Q,
    quat_derivation.std_gyro_rw, quat_derivation.q, quat_derivation.x0,
    Dcm.from_quat, W_correlated_at.
  la_unfold. list_eq; unfold Rdiv; ring.
Qed.

(** The step moves the entry [(0, 0)] by [- h] and nothing else. *)
Lemma quat_W1_correlated (t h : R) :
  quat_derivation.W1 t quat_derivation.x0 W_correlated [0; 0; 0] 0 0 h
  = W_correlated_at (1e-3 - h).
Proof.
  unfold quat_derivation.W1.
  pose (K := [ [-1; 0; 0; 0; 0; 0]; [0; 0; 0; 0; 0; 0]; [0; 0; 0; 0; 0; 0];
               [0; 0; 0; 0; 0; 0]; [0; 0; 0; 0; 0; 0]; [0; 0; 0; 0; 0; 0] ]).
  rewrite (rk4_stages _ t W_correlated h K K K K
             (W_correlated_at (1e-3 - h / 2))
             (W_correlated_at (1e-3 - h / 2))
             (W_correlated_at (1e-3 - h)));
    try apply quat_W_dot_correlated;
    unfold K, W_correlated, W_correlated_at; la_unfold; list_eq; lra.
Qed.

Lemma has_shape_W_correlated : has_shape W_correlated 6 6.
Proof.
  split; [reflexivity|].
  unfold W_correlated, W_correlated_at. repeat constructor.
Qed.

Lemma triangular_factor_W_correlated : triangular_factor W_correlated.
Proof.
  split.
  - apply strictly_upper_zero_W_correlated_at.
  - apply diag_nonneg_W_correlated.
Qed.

(** C1 (amended).  For every call to [predict], in each of the three
    parametrizations, with an input factor [W] whose entries above the
    diagonal are zero, every entry above the diagonal of the returned
    factor [W1] is zero.  Nothing is said of the sign of its diagonal. *)
Theorem predict_W1_strictly_upper_zero
  (t : R) (x : vec) (W : mat) (omega : vec) (std_gyro sn_gyro_rw dt : R) :
  strictly_upper_zero W ->
  strictly_upper_zero
    (snd (predict mrp_eqs t x W omega std_gyro sn_gyro_rw dt)) /\
  strictly_upper_zero
    (snd (predict quat_eqs t x W omega std_gyro sn_gyro_rw dt)) /\
  strictly_upper_zero
    (snd (predict mekf_eqs t x W omega std_gyro sn_gyro_rw dt)).
Proof.
  intros HW. simpl.
  unfold mrp_derivation.W1, quat_derivation.W1, mekf_derivation.W1.
  repeat split; apply rk4_strictly_upper_zero; auto; intros s Y;
    apply strictly_upper_zero_tril.
Qed.

Lemma predict_W1_strictly_upper_zero_witness :
  strictly_upper_zero W_correlated /\
  strictly_upper_zero
    (snd (predict mrp_eqs 0 mrp_derivation.x0 W_correlated [0; 0; 0]
            1e-2 1e-2 (1 / 200))) /\
  strictly_upper_zero
    (snd (predict quat_eqs 0 quat_derivation.x0 W_correlated [0; 0; 0]
            1e-2 1e-2 (1 / 200))) /\
  strictly_upper_zero
    (snd (predict mekf_eqs 0 mekf_derivation.x0 W_correlated [0; 0; 0]
            1e-2 1e-2 (1 / 200))).
Proof.
  split.
  - apply strictly_upper_zero_W_correlated_at.
  - pose proof (predict_W1_strictly_upper_zero 0 mrp_derivation.x0
                  W_correlated [0; 0; 0] 1e-2 1e-2 (1 / 200)
                  (strictly_upper_zero_W_correlated_at 1e-3)) as [Hm _].
    pose proof (predict_W1_strictly_upper_zero 0 quat_derivation.x0
                  W_correlated [0; 0; 0] 1e-2 1e-2 (1 / 200)
                  (strictly_upper_zero_W_correlated_at 1e-3)) as [_ [Hq Hk]].
    exact (conj Hm (conj Hq Hk)).
Defined.

(** C1, as stated, fails.  The quaternion filter, at the initial state,
    with no rate and no process noise, is handed the 6x6 lower-triangular
    factor [W_correlated], whose diagonal is positive; after one step of
    [1/200] the entry [(0, 0)] of the returned factor is [-1/250]. *)
Lemma predict_W1_diag_negative :
  has_shape W_correlated 6 6 /\
  triangular_factor W_correlated /\
  el2 (snd (predict quat_eqs 0 quat_derivation.x0 W_correlated [0; 0; 0]
              0 0 (1 / 200))) 0 0 = - (1 / 250) /\
  ~ triangular_factor
      (snd (predict quat_eqs 0 quat_derivation.x0 W_correlated [0; 0; 0]
              0 0 (1 / 200))).
Proof.
  split; [apply has_shape_W_correlated|].
  split; [apply triangular_factor_W_correlated|].
  simpl. rewrite quat_W1_correlated.
  split.
  - unfold el2, W_correlated_at. simpl. lra.
  - intros [_ Hd]. specialize (Hd 0%nat).
    unfold el2, W_correlated_at in Hd. simpl in Hd.
    assert (0 <= 1e-3 - 1 / 200) by (apply Hd; lia). lra.
Qed.

(* ================================================================== *)
(** ** The shadow set of the MRP *)
(* ================================================================== *)

Lemma sqrt_gt_1 (a : R) : 1 < sqrt a -> 1 < a.
Proof.
  intros H. destruct (Rlt_le_dec 1 a) as [|Hle]; [assumption|].
  apply sqrt_le_1_alt in Hle. rewrite sqrt_1 in Hle. lra.
Qed.

Lemma sqrt_le_1 (a : R) : a <= 1 -> sqrt a <= 1.
Proof.
  intros H. rewrite <- sqrt_1. now apply sqrt_le_1_alt.
Qed.

Lemma dot3_nonneg (r : vec) : 0 <= dot (slice r 0 3) (slice r 0 3).
Proof.
  la_symb. nra.
Qed.

Lemma norm_2_sq (r : vec) :
  norm_2 (slice r 0 3) ^ 2 = dot (slice r 0 3) (slice r 0 3).
Proof.
  unfold norm_2. simpl. rewrite Rmult_1_r.
  apply sqrt_sqrt, dot3_nonneg.
Qed.

(** The rotation part of the shadow is [r * (-1/|r|^2)]. *)
Lemma slice_shadow (r : vec) :
  slice (Mrp.shadow r) 0 3
  = vscale (- 1 / norm_2 (slice r 0 3) ^ 2) (slice r 0 3).
Proof.
  rewrite norm_2_sq. reflexivity.
Qed.

(** The shadow of an MRP of magnitude above one has magnitude below
    one. *)
Lemma norm_2_shadow (r : vec) :
  1 < norm_2 (slice r 0 3) -> norm_2 (slice (Mrp.shadow r) 0 3) <= 1.
Proof.
  intros H. apply sqrt_gt_1 in H.
  unfold norm_2. apply sqrt_le_1.
  revert H. unfold Mrp.shadow. la_symb.
  set (a := el r 0). set (b := el r 1). set (c := el r 2).
  intros H.
  replace (a * a + (b * b + (c * c + 0))) with (a * a + b * b + c * c)
    in * by ring.
  set (n := a * a + b * b + c * c) in *.
  assert (Hn : n <> 0) by lra.
  replace (- 1 / n * a * (- 1 / n * a) +
           (- 1 / n * b * (- 1 / n * b) +
            (- 1 / n * c * (- 1 / n * c) + 0)))
    with (/ n).
  - rewrite <- Rinv_1. apply Rinv_le_contravar; lra.
  - assert (E : a * a + b * b + c * c = n) by reflexivity.
    clearbody n a b c.
    transitivity ((a * a + b * b + c * c) * / n * / n);
      [rewrite E|]; field; exact Hn.
Qed.

(** After [shadow_if_required] the magnitude is at most one, whatever it
    was before. *)
Lemma norm_2_shadow_if_required (r : vec) :
  norm_2 (slice (Mrp.shadow_if_required r) 0 3) <= 1.
Proof.
  unfold Mrp.shadow_if_required.
  destruct (Rlt_dec 1 (norm_2 (slice r 0 3))) as [H|H].
  - now apply norm_2_shadow.
  - lra.
Qed.

(** Writing a block of four entries at the head of a state leaves the
    rotation part of the block in place. *)
Lemma slice_set_head_shadow_if_required (y : vec) :
  slice (set_head y 4 (Mrp.shadow_if_required (slice y 0 4))) 0 3
  = slice (Mrp.shadow_if_required (slice y 0 4)) 0 3.
Proof.
  unfold Mrp.shadow_if_required.
  destruct (Rlt_dec 1 (norm_2 (slice (slice y 0 4) 0 3))); reflexivity.
Qed.

(** C4.  [shadow_if_required r] is the shadow MRP, whose rotation part is
    [r * (-1/|r|^2)], exactly when [|r| > 1], and is [r] otherwise; the
    MRP [simulate] applies it to the rotation block of the integrated
    state, so that the rotation part it returns has magnitude at most
    one. *)
Theorem shadow_if_required_spec :
  (forall r : vec,
      1 < norm_2 (slice r 0 3) ->
      Mrp.shadow_if_required r = Mrp.shadow r /\
      slice (Mrp.shadow r) 0 3
      = vscale (- 1 / norm_2 (slice r 0 3) ^ 2) (slice r 0 3)) /\
  (forall r : vec,
      norm_2 (slice r 0 3) <= 1 -> Mrp.shadow_if_required r = r) /\
  (forall (t : R) (x omega w_g w_b : vec) (dt : R),
      let y := rk4 (fun t x => mrp_derivation.f_xdot t x omega w_g w_b)
                 t x dt in
      simulate mrp_eqs t x omega w_g w_b dt
      = set_head y 4 (Mrp.shadow_if_required (slice y 0 4)) /\
      norm_2 (slice (simulate mrp_eqs t x omega w_g w_b dt) 0 3) <= 1).
Proof.
  split; [|split].
  - intros r H. split; [|apply slice_shadow].
    unfold Mrp.shadow_if_required.
    destruct (Rlt_dec 1 (norm_2 (slice r 0 3))); [reflexivity|contradiction].
  - intros r H. unfold Mrp.shadow_if_required.
    destruct (Rlt_dec 1 (norm_2 (slice r 0 3))); [lra|reflexivity].
  - intros t x omega w_g w_b dt y. split; [reflexivity|].
    simpl. unfold mrp_derivation.x1_sim. fold y.
    rewrite slice_set_head_shadow_if_required.
    apply norm_2_shadow_if_required.
Qed.

Lemma one_lt_sqrt (a : R) : 1 < a -> 1 < sqrt a.
Proof.
  intros H. rewrite <- sqrt_1 at 1. apply sqrt_lt_1; lra.
Qed.

Lemma logic_not_0 : logic_not 0 = 1.
Proof.
  unfold logic_not. destruct (Req_dec_T 0 0); [reflexivity|contradiction].
Qed.

Lemma norm_2_2000 : 1 < norm_2 (slice [2; 0; 0; 0] 0 3).
Proof.
  unfold norm_2. la_unfold. apply one_lt_sqrt. lra.
Qed.

Lemma norm_2_half : norm_2 (slice [1 / 2; 0; 0; 0] 0 3) <= 1.
Proof.
  unfold norm_2. la_unfold. apply sqrt_le_1. lra.
Qed.

Lemma shadow_if_required_spec_witness :
  (1 < norm_2 (slice [2; 0; 0; 0] 0 3) /\
   Mrp.shadow_if_required [2; 0; 0; 0] = Mrp.shadow [2; 0; 0; 0]) /\
  (norm_2 (slice [1 / 2; 0; 0; 0] 0 3) <= 1 /\
   Mrp.shadow_if_required [1 / 2; 0; 0; 0] = [1 / 2; 0; 0; 0]).
Proof.
  destruct shadow_if_required_spec as [Hgt [Hle _]].
  split; split.
  - exact norm_2_2000.
  - exact (proj1 (Hgt [2; 0; 0; 0] norm_2_2000)).
  - exact norm_2_half.
  - exact (Hle [1 / 2; 0; 0; 0] norm_2_half).
Defined.

(* ================================================================== *)
(** ** The state at rest *)
(* ================================================================== *)

Lemma vscale_zeros (c : R) (n : nat) : vscale c (zeros n) = zeros n.
Proof.
  induction n as [|n IH]; simpl; [reflexivity|].
  unfold vscale, zeros in *. simpl. rewrite IH. f_equal. ring.
Qed.

Lemma vadd_zeros_r (y : vec) : vadd y (zeros (length y)) = y.
Proof.
  induction y as [|a y IH]; simpl; [reflexivity|].
  unfold vadd, zeros in *. simpl. rewrite IH. f_equal. ring.
Qed.

Lemma vadd_zeros_zeros (n : nat) : vadd (zeros n) (zeros n) = zeros n.
Proof.
  rewrite <- (repeat_length 0 n) at 2. apply vadd_zeros_r.
Qed.

(** Where the derivative vanishes at [y], whatever the time, the
    integrator returns [y]. *)
Lemma rk4_stationary (f : R -> vec -> vec) (t : R) (y : vec) (h : R) :
  (forall s, f s y = zeros (length y)) -> rk4 f t y h = y.
Proof.
  intros Hf. unfold rk4.
  change (@ladd vec _) with vadd.
  change (@lscale vec _) with vscale.
  repeat (progress
            rewrite ?Hf, ?vscale_zeros, ?vadd_zeros_zeros, ?vadd_zeros_r).
  reflexivity.
Qed.

(** Without a net rate the MRP does not move. *)
Lemma Mrp_derivative_zero_rate (r w : vec) :
  el w 0 = 0 -> el w 1 = 0 -> el w 2 = 0 ->
  Mrp.derivative r w = [0; 0; 0; 0].
Proof.
  intros H0 H1 H2. unfold Mrp.derivative. la_symb.
  rewrite H0, H1, H2. list_eq; ring.
Qed.

(** Without a net rate the quaternion does not move. *)
Lemma Quat_derivative_zero_rate (q w : vec) :
  el w 0 = 0 -> el w 1 = 0 -> el w 2 = 0 ->
  Quat.derivative q w = [0; 0; 0; 0].
Proof.
  intros H0 H1 H2. unfold Quat.derivative. la_symb.
  rewrite H0, H1, H2. list_eq; ring.
Qed.

Lemma shadow_2000 : Mrp.shadow [2; 0; 0; 0] = [- (1 / 2); 0; 0; 1].
Proof.
  unfold Mrp.shadow. la_unfold. rewrite logic_not_0. list_eq; field.
Qed.

(** An MRP of magnitude two, at rest: the integration leaves it where it
    is. *)
Lemma mrp_rk4_rest_2 (t dt : R) :
  rk4 (fun t x => mrp_derivation.f_xdot t x [0; 0; 0] (zeros 3) (zeros 3))
    t [2; 0; 0; 0; 0; 0; 0] dt
  = [2; 0; 0; 0; 0; 0; 0].
Proof.
  apply rk4_stationary. intros s.
  unfold mrp_derivation.f_xdot, mrp_derivation.xdot.
  rewrite Mrp_derivative_zero_rate; [reflexivity| | |];
    unfold mrp_derivation.b_g; la_unfold; lra.
Qed.

Lemma mrp_x1_rest_2 (t dt : R) :
  mrp_derivation.x1 t [2; 0; 0; 0; 0; 0; 0] [0; 0; 0] dt
  = [- (1 / 2); 0; 0; 1; 0; 0; 0].
Proof.
  unfold mrp_derivation.x1. rewrite mrp_rk4_rest_2.
  change (slice [2; 0; 0; 0; 0; 0; 0] 0 4) with [2; 0; 0; 0].
  unfold Mrp.shadow_if_required.
  destruct (Rlt_dec 1 (norm_2 (slice [2; 0; 0; 0] 0 3))) as [_|H].
  - rewrite shadow_2000. reflexivity.
  - exfalso. apply H, norm_2_2000.
Qed.

(** C2 (amended).  In the MRP parametrization the mean-propagation path
    of [predict] applies [shadow_if_required] to the rotation block after
    the integration, as [simulate] does: the state [predict] returns is
    the one [simulate] returns without noise, and its rotation part has
    magnitude at most one. *)
Theorem mrp_predict_applies_shadow
  (t : R) (x : vec) (W : mat) (omega : vec) (std_gyro sn_gyro_rw dt : R) :
  let y := rk4 (fun t x =>
                  mrp_derivation.f_xdot t x omega (zeros 3) (zeros 3))
             t x dt in
  fst (predict mrp_eqs t x W omega std_gyro sn_gyro_rw dt)
  = set_head y 4 (Mrp.shadow_if_required (slice y 0 4)) /\
  fst (predict mrp_eqs t x W omega std_gyro sn_gyro_rw dt)
  = simulate mrp_eqs t x omega (zeros 3) (zeros 3) dt /\
  norm_2 (slice (fst (predict mrp_eqs t x W omega std_gyro sn_gyro_rw dt))
            0 3) <= 1.
Proof.
  intros y. split; [reflexivity|]. split; [reflexivity|].
  simpl. unfold mrp_derivation.x1. fold y.
  rewrite slice_set_head_shadow_if_required.
  apply norm_2_shadow_if_required.
Qed.

(** C2, as stated, fails.  For the state [(2,0,0,0,0,0,0)], at rest, the
    integration returns the state as it is, and [predict] returns its
    shadow [(-1/2,0,0,1,0,0,0)]: the shadow switch is applied. *)
Lemma mrp_predict_is_not_the_integrated_state :
  let x := [2; 0; 0; 0; 0; 0; 0] in
  let y := rk4 (fun t x =>
                  mrp_derivation.f_xdot t x [0; 0; 0] (zeros 3) (zeros 3))
             0 x (1 / 200) in
  y = [2; 0; 0; 0; 0; 0; 0] /\
  fst (predict mrp_eqs 0 x mrp_derivation.W0 [0; 0; 0] 1e-2 1e-2 (1 / 200))
  = [- (1 / 2); 0; 0; 1; 0; 0; 0] /\
  fst (predict mrp_eqs 0 x mrp_derivation.W0 [0; 0; 0] 1e-2 1e-2 (1 / 200))
  <> y.
Proof.
  intros x y. unfold y, x. rewrite mrp_rk4_rest_2. simpl.
  rewrite mrp_x1_rest_2. repeat split.
  intros H. injection H as H. lra.
Qed.

(* ================================================================== *)
(** ** No drift without excitation *)
(* ================================================================== *)

Lemma mrp_x1_rest (t dt : R) :
  mrp_derivation.x1 t mrp_derivation.x0 [0; 0; 0] dt = mrp_derivation.x0.
Proof.
  unfold mrp_derivation.x1.
  rewrite rk4_stationary.
  - change (slice mrp_derivation.x0 0 4) with [0; 0; 0; 0].
    unfold Mrp.shadow_if_required.
    destruct (Rlt_dec 1 (norm_2 (slice [0; 0; 0; 0] 0 3))) as [H|_];
      [|reflexivity].
    exfalso. revert H. unfold norm_2. la_unfold.
    replace (0 * 0 + (0 * 0 + (0 * 0 + 0))) with 0 by ring.
    rewrite sqrt_0. lra.
  - intros s. unfold mrp_derivation.f_xdot, mrp_derivation.xdot.
    rewrite Mrp_derivative_zero_rate; [reflexivity| | |];
      unfold mrp_derivation.b_g, mrp_derivation.x0; la_unfold; lra.
Qed.

Lemma quat_x1_rest (t dt : R) :
  quat_derivation.x1 t quat_derivation.x0 [0; 0; 0] dt = quat_derivation.x0.
Proof.
  unfold quat_derivation.x1.
  apply rk4_stationary. intros s.
  unfold quat_derivation.f_xdot, quat_derivation.xdot.
  rewrite Quat_derivative_zero_rate; [reflexivity| | |];
    unfold quat_derivation.b_g, quat_derivation.x0; la_unfold; lra.
Qed.

Lemma mekf_x1_rest (t dt : R) :
  mekf_derivation.x1 t mekf_derivation.x0 [0; 0; 0] dt = mekf_derivation.x0.
Proof.
  unfold mekf_derivation.x1.
  apply rk4_stationary. intros s.
  unfold mekf_derivation.f_xdot, mekf_derivation.xdot.
  rewrite Quat_derivative_zero_rate; [reflexivity| | |];
    unfold mekf_derivation.b_g, mekf_derivation.x0; la_unfold; lra.
Qed.

(** A state that one prediction returns as it is, is returned as it is by
    any number of predictions. *)
Lemma iterate_predict_fixed (eqs : Eqs) (x omega : vec)
  (std_gyro sn_gyro_rw dt : R) :
  (forall t W, fst (predict eqs t x W omega std_gyro sn_gyro_rw dt) = x) ->
  forall n t W,
    fst (iterate_predict eqs n t (x, W) omega std_gyro sn_gyro_rw dt) = x.
Proof.
  intros Hfix n. induction n as [|n IH]; intros t W; simpl; [reflexivity|].
  specialize (Hfix t W).
  destruct (predict eqs t x W omega std_gyro sn_gyro_rw dt) as [x' W'].
  simpl in Hfix. subst x'. apply IH.
Qed.

Lemma Rabs_same_le (a : R) : Rabs (a - a) <= 1e-9.
Proof.
  replace (a - a) with 0 by ring. rewrite Rabs_R0. lra.
Qed.

Lemma from_mrp_identity : Quat.from_mrp [0; 0; 0; 0] = [1; 0; 0; 0].
Proof.
  unfold Quat.from_mrp. la_unfold.
  destruct (Req_dec_T 0 0) as [_|H]; [|contradiction].
  list_eq; field; lra.
Qed.

Lemma mrp_no_drift (n : nat) (dt : R) : no_drift mrp_eqs n dt.
Proof.
  unfold no_drift.
  change (constants mrp_eqs) with (mrp_derivation.x0, mrp_derivation.W0).
  rewrite iterate_predict_fixed by (intros; apply mrp_x1_rest).
  change (get_state mrp_eqs mrp_derivation.x0)
    with (Quat.from_mrp [0; 0; 0; 0], [0; 0; 0]).
  rewrite from_mrp_identity. simpl.
  split; [intros i; apply Rabs_same_le | reflexivity].
Qed.

Lemma quat_no_drift (n : nat) (dt : R) : no_drift quat_eqs n dt.
Proof.
  unfold no_drift.
  change (constants quat_eqs) with (quat_derivation.x0, quat_derivation.W0).
  rewrite iterate_predict_fixed by (intros; apply quat_x1_rest).
  change (get_state quat_eqs quat_derivation.x0)
    with ([1; 0; 0; 0], [0; 0; 0]).
  simpl. split; [intros i; apply Rabs_same_le | reflexivity].
Qed.

Lemma mekf_no_drift (n : nat) (dt : R) : no_drift mekf_eqs n dt.
Proof.
  unfold no_drift.
  change (constants mekf_eqs) with (mekf_derivation.x0, mekf_derivation.W0).
  rewrite iterate_predict_fixed by (intros; apply mekf_x1_rest).
  change (get_state mekf_eqs mekf_derivation.x0)
    with ([1; 0; 0; 0], [0; 0; 0]).
  simpl. split; [intros i; apply Rabs_same_le | reflexivity].
Qed.

(** C6.  For every parametrization, from the initial state (identity
    rotation, zero bias), with the rate [(0,0,0)], no noise and
    [dt = 0.005], 200 predictions (one simulated second) yield a
    quaternion equal to [(1,0,0,0)] within [1e-9] and a bias equal to
    [(0,0,0)]. *)
Theorem zero_noise_identity_start :
  no_drift mrp_eqs 200 0.005 /\
  no_drift quat_eqs 200 0.005 /\
  no_drift mekf_eqs 200 0.005.
Proof.
  split; [apply mrp_no_drift|].
  split; [apply quat_no_drift | apply mekf_no_drift].
Qed.

(* ================================================================== *)
(** ** Constants and process noise *)
(* ================================================================== *)

Lemma has_shape_W0 : has_shape (mscale 1e-3 (eye 6)) 6 6.
Proof.
  split; [reflexivity|]. la_unfold. repeat constructor.
Qed.

Lemma el2_W0 (i j : nat) :
  (i < 6)%nat -> (j < 6)%nat ->
  el2 (mscale 1e-3 (eye 6)) i j = (if Nat.eqb i j then 1e-3 else 0).
Proof.
  intros Hi Hj.
  do 6 (destruct i as [|i];
        [ do 6 (destruct j as [|j]; [la_unfold; simpl; lra|]); lia | ]).
  lia.
Qed.

(** C7.  For every parametrization, [constants()] returns an initial
    state [x0] of 7 numbers that represents the identity rotation with
    zero gyro bias, and the initial covariance factor [W0] equal to
    [1e-3] times the 6x6 identity matrix. *)
Theorem constants_identity_start :
  identity_start mrp_eqs /\ identity_start quat_eqs /\
  identity_start mekf_eqs.
Proof.
  unfold identity_start. repeat split;
    try apply has_shape_W0; try apply el2_W0.
  change (get_state mrp_eqs (fst (constants mrp_eqs)))
    with (Quat.from_mrp [0; 0; 0; 0], [0; 0; 0]).
  now rewrite from_mrp_identity.
Qed.

(** C8.  In every parametrization, for every positive [dt], the
    process-noise covariance is
    [Q = diag(s_gyro^2, s_gyro^2, s_gyro^2, s_rw^2, s_rw^2, s_rw^2)]
    with [s_rw = sn_gyro_rw / sqrt dt]; then [s_rw^2 = sn_gyro_rw^2 / dt]. *)
Theorem process_noise_covariance (std_gyro sn_gyro_rw dt : R) :
  0 < dt ->
  let s_rw := sn_gyro_rw / sqrt dt in
  mrp_derivation.Q std_gyro sn_gyro_rw dt
  = diag_3_3 (std_gyro ^ 2) (s_rw ^ 2) /\
  quat_derivation.Q std_gyro sn_gyro_rw dt
  = diag_3_3 (std_gyro ^ 2) (s_rw ^ 2) /\
  mekf_derivation.Q std_gyro sn_gyro_rw dt
  = diag_3_3 (std_gyro ^ 2) (s_rw ^ 2) /\
  s_rw ^ 2 = sn_gyro_rw ^ 2 / dt.
Proof.
  intros Hdt s_rw. repeat split.
  unfold s_rw.
  assert (Hs : sqrt dt <> 0).
  { intros E. apply sqrt_eq_0 in E; lra. }
  rewrite <- (sqrt_sqrt dt) at 2 by lra.
  field. exact Hs.
Qed.

Lemma process_noise_covariance_witness :
  0 < 1 / 200 /\
  mrp_derivation.Q 1e-2 1e-2 (1 / 200)
  = diag_3_3 (1e-2 ^ 2) ((1e-2 / sqrt (1 / 200)) ^ 2) /\
  (1e-2 / sqrt (1 / 200)) ^ 2 = 1e-2 ^ 2 / (1 / 200).
Proof.
  assert (H : 0 < 1 / 200) by lra.
  split; [exact H|].
  destruct (process_noise_covariance 1e-2 1e-2 (1 / 200) H)
    as [Hm [_ [_ Hs]]].
  exact (conj Hm Hs).
Defined.

(* ================================================================== *)
(** ** The step of the estimator *)
(* ================================================================== *)

Lemma compute_dt_cases (t t_last : R) :
  (t - t_last <= 0 /\ compute_dt t t_last = 1 / 200) \/
  (0 < t - t_last /\ compute_dt t t_last = t - t_last).
Proof.
  unfold compute_dt. destruct (Rle_dec (t - t_last) 0); [left|right];
    split; auto; lra.
Qed.

Lemma compute_dt_pos (t t_last : R) : 0 < compute_dt t t_last.
Proof.
  destruct (compute_dt_cases t t_last) as [[_ E]|[H E]]; rewrite E; lra.
Qed.

(** C5.  For every [Imu] message an [AttitudeEstimator] receives, the
    step handed to [predict] is the nominal period [1/200] when
    [msg.time - t_last_imu <= 0] and [msg.time - t_last_imu] otherwise,
    so that it is positive in every case; the callback returns, and
    afterwards [t_last_imu] is [msg.time]. *)
Theorem imu_callback_step (self : AttitudeEstimator) (msg : Imu)
  (start stop : R) :
  let t := imu_time msg in
  let dt := t - t_last_imu self in
  let self' := fst (imu_callback self msg start stop) in
  t_last_imu self' = t /\
  exists dt' : R,
    0 < dt' /\
    ((dt <= 0 /\ dt' = 1 / 200) \/ (0 < dt /\ dt' = dt)) /\
    (est_x self', est_W self')
    = predict (est_eqs self) t (est_x self) (est_W self) (imu_gyro msg)
        std_gyro sn_gyro_rw dt'.
Proof.
  intros t dt self'. split; [reflexivity|].
  exists (compute_dt t (t_last_imu self)).
  split; [apply compute_dt_pos|].
  split; [apply compute_dt_cases|].
  unfold self'. simpl. fold t.
  now destruct (predict (est_eqs self) t (est_x self) (est_W self)
                  (imu_gyro msg) std_gyro sn_gyro_rw
                  (compute_dt t (t_last_imu self))).
Qed.

(* ================================================================== *)
(** ** Error dynamics and their linearization *)
(* ================================================================== *)

Lemma derivable_pt_lim_affine (g : R -> R) (c : R) :
  (forall s, g s = c * s + g 0) -> derivable_pt_lim g 0 c.
Proof.
  intros Hg eps Heps. exists (mkposreal 1 Rlt_0_1). intros h Hh _.
  rewrite (Hg (0 + h)).
  replace ((c * (0 + h) + g 0 - g 0) / h - c) with 0 by (field; exact Hh).
  now rewrite Rabs_R0.
Qed.

(** In the right-invariant filters the error dynamics are affine in
    [eta], and [F] is their Jacobian. *)
Lemma quat_F_jacobian (omega x w_b : vec) :
  jacobian_at_zero (fun eta => quat_derivation.f omega eta x w_b)
    (quat_derivation.F omega x) 6.
Proof.
  intros i j Hi Hj.
  do 6 (destruct i as [|i];
        [ do 6 (destruct j as [|j];
                [ apply derivable_pt_lim_affine; intros s;
                  unfold quat_derivation.f, quat_derivation.F,
                    quat_derivation.q, Dcm.from_quat;
                  la_symb; cbv [el2 nth]; ring | ]); lia | ]).
  lia.
Qed.

Lemma mrp_F_jacobian (omega x w_b : vec) :
  jacobian_at_zero (fun eta => mrp_derivation.f omega eta x w_b)
    (mrp_derivation.F omega x) 6.
Proof.
  intros i j Hi Hj.
  do 6 (destruct i as [|i];
        [ do 6 (destruct j as [|j];
                [ apply derivable_pt_lim_affine; intros s;
                  unfold mrp_derivation.f, mrp_derivation.F,
                    mrp_derivation.r, Dcm.from_mrp, Dcm.from_quat;
                  la_symb; cbv [el2 nth]; ring | ]); lia | ]).
  lia.
Qed.


(* ================================================================== *)
(** ** The quaternion filter and the MEKF *)
(* ================================================================== *)

(** With the identity attitude, a rate about the first axis and no process
    noise, the quaternion filter leaves a factor [W_spin_at c e] as it
    is. *)
Lemma quat_W_dot_spin (c e h : R) :
  quat_derivation.f_W_dot_lt quat_derivation.x0 (W_spin_at c e) 0 0
    [1; 0; 0] h
  = W_spin_dot 0 0.
Proof.
  unfold quat_derivation.f_W_dot_lt, quat_derivation.F, quat_derivation.Q,
    quat_derivation.std_gyro_rw, quat_derivation.q, quat_derivation.x0,
    Dcm.from_quat, W_spin_at, W_spin_dot.
  la_unfold. list_eq; unfold Rdiv; ring.
Qed.

Lemma quat_W1_spin (t c e h : R) :
  quat_derivation.W1 t quat_derivation.x0 (W_spin_at c e) [1; 0; 0] 0 0 h
  = W_spin_at c e.
Proof.
  unfold quat_derivation.W1.
  rewrite (rk4_stages _ t (W_spin_at c e) h
             (W_spin_dot 0 0) (W_spin_dot 0 0) (W_spin_dot 0 0)
             (W_spin_dot 0 0)
             (W_spin_at c e) (W_spin_at c e) (W_spin_at c e));
    try apply quat_W_dot_spin;
    unfold W_spin_at, W_spin_dot; la_unfold; list_eq; lra.
Qed.

(** The MEKF turns the two coupled entries into one another. *)
Lemma mekf_W_dot_spin (c e h : R) :
  mekf_derivation.f_W_dot_lt mekf_derivation.x0 (W_spin_at c e) 0 0
    [1; 0; 0] h
  = W_spin_dot e (- c).
Proof.
  unfold mekf_derivation.f_W_dot_lt, mekf_derivation.F, mekf_derivation.Q,
    mekf_derivation.std_gyro_rw, mekf_derivation.b_g, mekf_derivation.x0,
    W_spin_at, W_spin_dot.
  la_unfold. list_eq; unfold Rdiv; ring.
Qed.

Lemma mekf_W1_spin (t c e h : R) :
  let c2 := c + h / 2 * e in
  let e2 := e - h / 2 * c in
  let c3 := c + h / 2 * e2 in
  let e3 := e - h / 2 * c2 in
  let c4 := c + h * e3 in
  let e4 := e - h * c3 in
  mekf_derivation.W1 t mekf_derivation.x0 (W_spin_at c e) [1; 0; 0] 0 0 h
  = W_spin_at (c + h * (1 / 6 * e + 1 / 3 * e2 + 1 / 3 * e3 + 1 / 6 * e4))
              (e - h * (1 / 6 * c + 1 / 3 * c2 + 1 / 3 * c3 + 1 / 6 * c4)).
Proof.
  intros c2 e2 c3 e3 c4 e4.
  unfold mekf_derivation.W1.
  rewrite (rk4_stages _ t (W_spin_at c e) h
             (W_spin_dot e (- c)) (W_spin_dot e2 (- c2))
             (W_spin_dot e3 (- c3)) (W_spin_dot e4 (- c4))
             (W_spin_at c2 e2) (W_spin_at c3 e3) (W_spin_at c4 e4));
    try apply mekf_W_dot_spin;
    subst c4 e4 c3 e3 c2 e2; unfold W_spin_at, W_spin_dot;
    la_unfold; list_eq; first [lra | field].
Qed.

(** From the initial factor, one step of [1/200] under the rate
    [(1,0,0)]: the two filters return different factors. *)
Lemma quat_mekf_W1_differ :
  snd (predict quat_eqs 0 quat_derivation.x0 (W_spin_at 1e-3 0) [1; 0; 0]
         0 0 (1 / 200))
  <> snd (predict mekf_eqs 0 mekf_derivation.x0 (W_spin_at 1e-3 0) [1; 0; 0]
            0 0 (1 / 200)).
Proof.
  simpl. rewrite quat_W1_spin.
  change quat_derivation.x0 with mekf_derivation.x0.
  rewrite mekf_W1_spin.
  intros H. apply (f_equal (fun M => el2 M 2 1)) in H.
  cbv [el2 nth W_spin_at] in H. lra.
Qed.

(** C10.  For every input, the [predict] of the quaternion
    right-invariant filter and the [predict] of the MEKF return the same
    state [x1], the noise-free integration step of the quaternion and
    bias kinematics; the two derivations have the same [simulate],
    [get_state] and [constants], and differ in the factor [W1] that
    [predict] returns. *)
Theorem quat_mekf_same_state :
  (forall (t : R) (x : vec) (W : mat) (omega : vec)
          (std_gyro sn_gyro_rw dt : R),
      fst (predict quat_eqs t x W omega std_gyro sn_gyro_rw dt)
      = fst (predict mekf_eqs t x W omega std_gyro sn_gyro_rw dt) /\
      fst (predict quat_eqs t x W omega std_gyro sn_gyro_rw dt)
      = rk4 (fun _ x =>
               vertcat
                 (Quat.derivative (slice x 0 4)
                    (vadd (vsub omega (slice x 4 7)) (zeros 3)))
                 (zeros 3))
            t x dt) /\
  (forall (t : R) (x omega w_g w_b : vec) (dt : R),
      simulate quat_eqs t x omega w_g w_b dt
      = simulate mekf_eqs t x omega w_g w_b dt) /\
  (forall x : vec, get_state quat_eqs x = get_state mekf_eqs x) /\
  constants quat_eqs = constants mekf_eqs /\
  (exists (t : R) (x : vec) (W : mat) (omega : vec)
          (std_gyro sn_gyro_rw dt : R),
      snd (predict quat_eqs t x W omega std_gyro sn_gyro_rw dt)
      <> snd (predict mekf_eqs t x W omega std_gyro sn_gyro_rw dt)).
Proof.
  assert (Hx1 : forall t x omega dt,
             quat_derivation.x1 t x omega dt
             = mekf_derivation.x1 t x omega dt).
  { intros.
    unfold quat_derivation.x1, mekf_derivation.x1,
      quat_derivation.f_xdot, mekf_derivation.f_xdot,
      quat_derivation.xdot, mekf_derivation.xdot,
      quat_derivation.q, mekf_derivation.q,
      quat_derivation.b_g, mekf_derivation.b_g.
    reflexivity. }
  split.
  { intros. split; [apply Hx1|].
    unfold quat_eqs, quat_derivation.eqs, predict, fst,
      quat_derivation.x1, quat_derivation.f_xdot, quat_derivation.xdot,
      quat_derivation.q, quat_derivation.b_g.
    reflexivity. }
  split; [intros; apply Hx1|].
  split.
  { intros x. unfold quat_eqs, mekf_eqs, quat_derivation.eqs,
      mekf_derivation.eqs, get_state. reflexivity. }
  split.
  { unfold quat_eqs, mekf_eqs, quat_derivation.eqs, mekf_derivation.eqs,
      constants. reflexivity. }
  exists 0, quat_derivation.x0, (W_spin_at 1e-3 0), [1; 0; 0], 0, 0, (1 / 200).
  apply quat_mekf_W1_differ.
Qed.

(** *** The Jacobian of the MEKF error dynamics *)

Lemma sinc_abs (s : R) : sin (Rabs s) / Rabs s * s = sin s.
Proof.
  destruct (Req_dec s 0) as [E|N].
  - subst s. rewrite sin_0. ring.
  - destruct (Rcase_abs s) as [Hneg|Hpos].
    + rewrite (Rabs_left s Hneg), sin_neg. field. exact N.
    + rewrite (Rabs_right s Hpos). field. exact N.
Qed.

Lemma cosc_abs (s : R) :
  (1 - cos (Rabs s)) / (Rabs s * Rabs s) * (s * s) = 1 - cos s.
Proof.
  destruct (Req_dec s 0) as [E|N].
  - subst s. rewrite cos_0. ring.
  - destruct (Rcase_abs s) as [Hneg|Hpos].
    + rewrite (Rabs_left s Hneg), cos_neg. field. exact N.
    + rewrite (Rabs_right s Hpos). field. exact N.
Qed.

Lemma norm_2_axis_0 (s : R) : norm_2 [s * 1; s * 0; s * 0] = Rabs s.
Proof.
  unfold norm_2. la_unfold. rewrite <- sqrt_Rsqr_abs. f_equal.
  unfold Rsqr. ring.
Qed.

Lemma norm_2_axis_1 (s : R) : norm_2 [s * 0; s * 1; s * 0] = Rabs s.
Proof.
  unfold norm_2. la_unfold. rewrite <- sqrt_Rsqr_abs. f_equal.
  unfold Rsqr. ring.
Qed.

Lemma norm_2_axis_2 (s : R) : norm_2 [s * 0; s * 0; s * 1] = Rabs s.
Proof.
  unfold norm_2. la_unfold. rewrite <- sqrt_Rsqr_abs. f_equal.
  unfold Rsqr. ring.
Qed.

Lemma derivable_pt_lim_sin_cos (g : R -> R) (c d l : R) :
  (forall s, g s = sin s * c + (1 - cos s) * d) -> l = c ->
  derivable_pt_lim g 0 l.
Proof.
  intros Hg ->.
  apply derivable_pt_lim_ext
    with (f := (mult_real_fct c sin
                + mult_real_fct d (fct_cte 1 - cos))%F).
  - intros s. rewrite Hg.
    unfold plus_fct, mult_real_fct, minus_fct, fct_cte. ring.
  - replace c with (c * 1 + d * (0 - 0)) at 2 by ring.
    apply derivable_pt_lim_plus.
    + apply derivable_pt_lim_scal, derivable_pt_lim_sin_0.
    + apply derivable_pt_lim_scal, derivable_pt_lim_minus.
      * apply derivable_pt_lim_const.
      * apply derivable_pt_lim_cos_0.
Qed.

(** For a rate of three components, [F] is the Jacobian of the MEKF error
    dynamics at [eta = 0]. *)
Lemma mekf_F_jacobian (o0 o1 o2 : R) (x w_b : vec) :
  jacobian_at_zero (fun eta => mekf_derivation.f [o0; o1; o2] eta x w_b)
    (mekf_derivation.F [o0; o1; o2] x) 6.
Proof.
  intros i j Hi Hj.
  destruct i as [|[|[|i]]].
  - destruct j as [|[|[|j]]].
    + apply (derivable_pt_lim_sin_cos _ R0 R0);
        [ mekf_rotation_value norm_2_axis_0 sinc_abs cosc_abs | mekf_F_value ].
    + apply (derivable_pt_lim_sin_cos _ (o2 - el x 6) (- (o0 - el x 4)));
        [ mekf_rotation_value norm_2_axis_1 sinc_abs cosc_abs | mekf_F_value ].
    + apply (derivable_pt_lim_sin_cos _ (- (o1 - el x 5)) (- (o0 - el x 4)));
        [ mekf_rotation_value norm_2_axis_2 sinc_abs cosc_abs | mekf_F_value ].
    + do 3 (destruct j as [|j]; [mekf_affine_entry derivable_pt_lim_affine|]). lia.
  - destruct j as [|[|[|j]]].
    + apply (derivable_pt_lim_sin_cos _ (- (o2 - el x 6)) (- (o1 - el x 5)));
        [ mekf_rotation_value norm_2_axis_0 sinc_abs cosc_abs | mekf_F_value ].
    + apply (derivable_pt_lim_sin_cos _ R0 R0);
        [ mekf_rotation_value norm_2_axis_1 sinc_abs cosc_abs | mekf_F_value ].
    + apply (derivable_pt_lim_sin_cos _ (o0 - el x 4) (- (o1 - el x 5)));
        [ mekf_rotation_value norm_2_axis_2 sinc_abs cosc_abs | mekf_F_value ].
    + do 3 (destruct j as [|j]; [mekf_affine_entry derivable_pt_lim_affine|]). lia.
  - destruct j as [|[|[|j]]].
    + apply (derivable_pt_lim_sin_cos _ (o1 - el x 5) (- (o2 - el x 6)));
        [ mekf_rotation_value norm_2_axis_0 sinc_abs cosc_abs | mekf_F_value ].
    + apply (derivable_pt_lim_sin_cos _ (- (o0 - el x 4)) (- (o2 - el x 6)));
        [ mekf_rotation_value norm_2_axis_1 sinc_abs cosc_abs | mekf_F_value ].
    + apply (derivable_pt_lim_sin_cos _ R0 R0);
        [ mekf_rotation_value norm_2_axis_2 sinc_abs cosc_abs | mekf_F_value ].
    + do 3 (destruct j as [|j]; [mekf_affine_entry derivable_pt_lim_affine|]). lia.
  - do 3 (destruct i as [|i];
          [ do 6 (destruct j as [|j]; [mekf_affine_entry derivable_pt_lim_affine|]); lia | ]).
    lia.
Qed.


(** C3.  The error dynamics that are linearized into [F] are, for the MRP
    and the quaternion right-invariant filters, [- DCM(x) eta_b] for the
    rotation error and [w_b] for the bias error; for the MEKF,
    [- (I - exp(eta_r)) (omega - b) - exp(eta_r) eta_b] for the rotation
    error and [w_b] for the bias error.  In each filter [F] is the
    Jacobian of these dynamics in [eta], at [eta = 0]. *)
Theorem error_dynamics (o0 o1 o2 : R) (eta x w_b : vec) :
  let omega := [o0; o1; o2] in
  let eta_r := slice eta 0 3 in
  let eta_b := slice eta 3 6 in
  let b := slice x 4 7 in
  (slice (mrp_derivation.f omega eta x w_b) 0 3
   = vneg (mtimes_v (Dcm.from_mrp (slice x 0 4)) eta_b) /\
   skipn 3 (mrp_derivation.f omega eta x w_b) = w_b /\
   jacobian_at_zero (fun eta => mrp_derivation.f omega eta x w_b)
     (mrp_derivation.F omega x) 6) /\
  (slice (quat_derivation.f omega eta x w_b) 0 3
   = vneg (mtimes_v (Dcm.from_quat (slice x 0 4)) eta_b) /\
   skipn 3 (quat_derivation.f omega eta x w_b) = w_b /\
   jacobian_at_zero (fun eta => quat_derivation.f omega eta x w_b)
     (quat_derivation.F omega x) 6) /\
  (slice (mekf_derivation.f omega eta x w_b) 0 3
   = vsub (vneg (mtimes_v (msub (eye 3) (SO3.exp eta_r)) (vsub omega b)))
          (mtimes_v (SO3.exp eta_r) eta_b) /\
   skipn 3 (mekf_derivation.f omega eta x w_b) = w_b /\
   jacobian_at_zero (fun eta => mekf_derivation.f omega eta x w_b)
     (mekf_derivation.F omega x) 6).
Proof.
  intros omega eta_r eta_b b.
  split; [|split].
  - split; [|split].
    + unfold mrp_derivation.f, mrp_derivation.r, Dcm.from_mrp,
        Dcm.from_quat.
      reflexivity.
    + unfold mrp_derivation.f, Dcm.from_mrp, Dcm.from_quat. reflexivity.
    + exact (mrp_F_jacobian omega x w_b).
  - split; [|split].
    + unfold quat_derivation.f, quat_derivation.q, Dcm.from_quat.
      reflexivity.
    + unfold quat_derivation.f, Dcm.from_quat. reflexivity.
    + exact (quat_F_jacobian omega x w_b).
  - split; [|split].
    + unfold mekf_derivation.f, mekf_derivation.eta_R,
        mekf_derivation.eta_r, mekf_derivation.eta_b,
        mekf_derivation.b_g, SO3.exp.
      reflexivity.
    + unfold mekf_derivation.f, mekf_derivation.eta_R,
        mekf_derivation.eta_r, mekf_derivation.eta_b, SO3.exp.
      reflexivity.
    + exact (mekf_F_jacobian o0 o1 o2 x w_b).
Qed.

(* ================================================================== *)
(** ** The norm of the reported quaternion *)
(* ================================================================== *)

(** The quaternion of an MRP has norm one: so has every quaternion that
    [get_state] reports for the simulated state and for the MRP filter. *)
Lemma from_mrp_unit_norm (r : vec) :
  dot (Quat.from_mrp r) (Quat.from_mrp r) = 1.
Proof.
  unfold Quat.from_mrp.
  pose proof (dot3_nonneg r) as Hn.
  set (n := dot (slice r 0 3) (slice r 0 3)) in *.
  assert (Hd : 1 + n <> 0) by lra.
  assert (En : n = el r 0 * el r 0 + el r 1 * el r 1 + el r 2 * el r 2).
  { unfold n. la_symb. ring. }
  destruct (Req_dec_T (el r 3) 0); la_symb; rewrite En in *; field;
    exact Hd.
Qed.

Lemma mrp_get_state_unit_norm (x : vec) :
  norm_2 (fst (get_state mrp_eqs x)) = 1.
Proof.
  unfold norm_2. simpl. unfold mrp_derivation.q.
  rewrite from_mrp_unit_norm. apply sqrt_1.
Qed.

(** One prediction of the quaternion filter (and of the MEKF, which has
    the same state propagation) leaves the bias as it is and scales the
    squared norm of the quaternion by [1 - th^6/72 + th^8/576], where
    [th = |omega - b| dt / 2]: the integration does not keep the norm, and
    nothing renormalizes it. *)
Lemma quat_x1_norm_factor (q0 q1 q2 q3 b0 b1 b2 w0 w1 w2 t h : R) :
  let x := [q0; q1; q2; q3; b0; b1; b2] in
  let x1 := quat_derivation.x1 t x [w0; w1; w2] h in
  let th2 :=
    ((w0 - b0) ^ 2 + (w1 - b1) ^ 2 + (w2 - b2) ^ 2) * h ^ 2 / 4 in
  dot (slice x1 0 4) (slice x1 0 4)
  = (1 - th2 ^ 3 / 72 + th2 ^ 4 / 576) * dot (slice x 0 4) (slice x 0 4) /\
  slice x1 4 7 = [b0; b1; b2].
Proof.
  intros x x1 th2.
  unfold x1, th2, x, quat_derivation.x1, quat_derivation.f_xdot,
    quat_derivation.xdot, quat_derivation.q, quat_derivation.b_g,
    Quat.derivative.
  la_unfold. split.
  - field.
  - list_eq; ring.
Qed.

(* ================================================================== *)
(** ** The shadow switch in operation *)
(* ================================================================== *)

(** The MRP kinematics along the first axis, without bias. *)
Lemma mrp_xdot_axis (t r w : R) :
  mrp_derivation.f_xdot t [r; 0; 0; 0; 0; 0; 0] [w; 0; 0] (zeros 3) (zeros 3)
  = [1 / 4 * (1 + r * r) * w; 0; 0; 0; 0; 0; 0].
Proof.
  unfold mrp_derivation.f_xdot, mrp_derivation.xdot, mrp_derivation.r,
    mrp_derivation.b_g, Mrp.derivative.
  la_unfold. list_eq; ring.
Qed.

Lemma mrp_rk4_axis (t r w h : R) :
  let k1 := 1 / 4 * (1 + r * r) * w in
  let r2 := r + h / 2 * k1 in
  let k2 := 1 / 4 * (1 + r2 * r2) * w in
  let r3 := r + h / 2 * k2 in
  let k3 := 1 / 4 * (1 + r3 * r3) * w in
  let r4 := r + h * k3 in
  let k4 := 1 / 4 * (1 + r4 * r4) * w in
  rk4 (fun t x => mrp_derivation.f_xdot t x [w; 0; 0] (zeros 3) (zeros 3))
    t [r; 0; 0; 0; 0; 0; 0] h
  = [r + h * (1 / 6 * k1 + 1 / 3 * k2 + 1 / 3 * k3 + 1 / 6 * k4);
     0; 0; 0; 0; 0; 0].
Proof.
  intros k1 r2 k2 r3 k3 r4 k4.
  rewrite (rk4_stages _ t [r; 0; 0; 0; 0; 0; 0] h
             [k1; 0; 0; 0; 0; 0; 0] [k2; 0; 0; 0; 0; 0; 0]
             [k3; 0; 0; 0; 0; 0; 0] [k4; 0; 0; 0; 0; 0; 0]
             [r2; 0; 0; 0; 0; 0; 0] [r3; 0; 0; 0; 0; 0; 0]
             [r4; 0; 0; 0; 0; 0; 0]);
    try apply mrp_xdot_axis;
    subst k4 r4 k3 r3 k2 r2 k1; la_unfold; list_eq; ring.
Qed.

(** A half turn about the first axis, [|r| = 1], and a rate of 4 rad/s
    about the same axis: after one step of [1/200] the integrated MRP has
    left the unit ball, and [predict] returns its shadow, whose first
    entry is negative. *)
Lemma mrp_predict_switches_at_half_turn :
  let x := [1; 0; 0; 0; 0; 0; 0] in
  let y := rk4 (fun t x =>
                  mrp_derivation.f_xdot t x [4; 0; 0] (zeros 3) (zeros 3))
             0 x (1 / 200) in
  1 < el y 0 /\
  el (fst (predict mrp_eqs 0 x mrp_derivation.W0 [4; 0; 0] 1e-2 1e-2
             (1 / 200))) 0 < 0.
Proof.
  intros x y.
  assert (Hy : exists a, 1 < a /\ y = [a; 0; 0; 0; 0; 0; 0]).
  { unfold y, x. rewrite mrp_rk4_axis. eexists. split; [|reflexivity].
    nra. }
  destruct Hy as [a [Ha Ey]].
  split; [rewrite Ey; exact Ha|].
  simpl. unfold mrp_derivation.x1. fold x. fold y. rewrite Ey.
  change (slice [a; 0; 0; 0; 0; 0; 0] 0 4) with [a; 0; 0; 0].
  unfold Mrp.shadow_if_required.
  destruct (Rlt_dec 1 (norm_2 (slice [a; 0; 0; 0] 0 3))) as [_|H].
  - unfold Mrp.shadow. la_unfold.
    assert (Hn : 0 < a * a + (0 * 0 + (0 * 0 + 0))) by nra.
    apply Rinv_0_lt_compat in Hn.
    unfold Rdiv. nra.
  - exfalso. apply H. unfold norm_2. la_unfold. apply one_lt_sqrt. nra.
Qed.

(* ================================================================== *)
(** ** The bias through [predict] and [simulate] *)
(* ================================================================== *)

Lemma skipn_zipWith {A B C : Type} (f : A -> B -> C) (n : nat)
  (a : list A) (b : list B) :
  skipn n (zipWith f a b) = zipWith f (skipn n a) (skipn n b).
Proof.
  revert a b. induction n as [|n IH]; intros [|x a] [|y b]; simpl; auto.
  now destruct (skipn n a).
Qed.

Lemma skipn_vadd (n : nat) (a b : vec) :
  skipn n (vadd a b) = vadd (skipn n a) (skipn n b).
Proof. apply skipn_zipWith. Qed.

Lemma skipn_vscale (n : nat) (c : R) (a : vec) :
  skipn n (vscale c a) = vscale c (skipn n a).
Proof. unfold vscale. apply skipn_map. Qed.

(** The weights of the integrator add up to one. *)
Lemma rk4_weights (w : vec) :
  vadd (vadd (vscale (1 / 6) w) (vscale (1 / 3) w))
       (vadd (vscale (1 / 3) w) (vscale (1 / 6) w)) = w.
Proof.
  induction w as [|a w IH]; [reflexivity|].
  unfold vadd, vscale in *. simpl. rewrite IH. f_equal. lra.
Qed.

(** Where the tail of the derivative, from the entry [n] on, is a
    constant [w], the tail of the state moves by [h w]. *)
Lemma skipn_rk4 (f : R -> vec -> vec) (n : nat) (w : vec)
  (t : R) (y : vec) (h : R) :
  (forall s z, skipn n (f s z) = w) ->
  skipn n (rk4 f t y h) = vadd (skipn n y) (vscale h w).
Proof.
  intros Hf. unfold rk4.
  change (@ladd vec _) with vadd.
  change (@lscale vec _) with vscale.
  rewrite !skipn_vadd, !skipn_vscale, !skipn_vadd, !skipn_vscale, !Hf.
  now rewrite rk4_weights.
Qed.

Lemma el_skipn (n i : nat) (v : vec) : el (skipn n v) i = el v (n + i).
Proof.
  unfold el. revert v. induction n as [|n IH]; intros v; [reflexivity|].
  destruct v as [|a v]; simpl; [now destruct i | apply IH].
Qed.

Lemma slice_4_7_skipn (v : vec) : slice v 4 7 = slice (skipn 4 v) 0 3.
Proof.
  change (slice v 4 7) with [el v 4; el v 5; el v 6].
  change (slice (skipn 4 v) 0 3)
    with [el (skipn 4 v) 0; el (skipn 4 v) 1; el (skipn 4 v) 2].
  now rewrite !el_skipn.
Qed.

Lemma slice_vadd_zeros (a : vec) :
  slice (vadd a (zeros 3)) 0 3 = slice a 0 3.
Proof.
  destruct a as [|a0 [|a1 [|a2 a]]]; la_unfold; list_eq; ring.
Qed.

Lemma mrp_xdot_tail (x omega w_g w_b : vec) :
  skipn 4 (mrp_derivation.xdot x omega w_g w_b) = w_b.
Proof. reflexivity. Qed.

Lemma quat_xdot_tail (x omega w_g w_b : vec) :
  skipn 4 (quat_derivation.xdot x omega w_g w_b) = w_b.
Proof. reflexivity. Qed.

Lemma mekf_xdot_tail (x omega w_g w_b : vec) :
  skipn 4 (mekf_derivation.xdot x omega w_g w_b) = w_b.
Proof. reflexivity. Qed.

Lemma length_shadow_if_required (y : vec) :
  length (Mrp.shadow_if_required (slice y 0 4)) = 4%nat.
Proof.
  unfold Mrp.shadow_if_required.
  destruct (Rlt_dec 1 (norm_2 (slice (slice y 0 4) 0 3))); reflexivity.
Qed.

Lemma skipn_set_head_shadow (y : vec) :
  skipn 4 (set_head y 4 (Mrp.shadow_if_required (slice y 0 4)))
  = skipn 4 y.
Proof.
  unfold set_head.
  rewrite skipn_app, length_shadow_if_required, Nat.sub_diag.
  rewrite skipn_all2 by (rewrite length_shadow_if_required; lia).
  reflexivity.
Qed.

(** X1.  [predict] never moves the bias: in the three filters the bias
    part of the returned state is the bias part of the state it was
    given, whatever the rate, the step and the factor. *)
Theorem predict_keeps_bias
  (t : R) (x : vec) (W : mat) (omega : vec) (std_gyro sn_gyro_rw dt : R) :
  slice (fst (predict mrp_eqs t x W omega std_gyro sn_gyro_rw dt)) 4 7
  = slice x 4 7 /\
  slice (fst (predict quat_eqs t x W omega std_gyro sn_gyro_rw dt)) 4 7
  = slice x 4 7 /\
  slice (fst (predict mekf_eqs t x W omega std_gyro sn_gyro_rw dt)) 4 7
  = slice x 4 7.
Proof.
  rewrite !slice_4_7_skipn. cbn [predict mrp_eqs quat_eqs mekf_eqs
    mrp_derivation.eqs quat_derivation.eqs mekf_derivation.eqs fst].
  unfold mrp_derivation.x1, quat_derivation.x1, mekf_derivation.x1.
  rewrite skipn_set_head_shadow.
  rewrite (skipn_rk4 _ 4 (zeros 3)) by (intros; apply mrp_xdot_tail).
  rewrite (skipn_rk4 _ 4 (zeros 3)) by (intros; apply quat_xdot_tail).
  rewrite (skipn_rk4 _ 4 (zeros 3)) by (intros; apply mekf_xdot_tail).
  rewrite vscale_zeros, slice_vadd_zeros. auto.
Qed.

(** X2.  The MRP [simulate] moves the bias by [dt w_b], whatever the
    rotation does: the bias entries of the returned state are those of
    the state it was given plus [dt] times the noise [w_b]. *)
Theorem mrp_simulate_bias_walk (t : R) (x omega w_g w_b : vec) (dt : R) :
  skipn 4 (simulate mrp_eqs t x omega w_g w_b dt)
  = vadd (skipn 4 x) (vscale dt w_b).
Proof.
  cbn [simulate mrp_eqs mrp_derivation.eqs].
  unfold mrp_derivation.x1_sim.
  rewrite skipn_set_head_shadow.
  apply skipn_rk4. intros. apply mrp_xdot_tail.
Qed.

(** X3.  The [simulate] of the quaternion filter and of the MEKF is built
    on the noise-free propagation: it returns the state of [predict], the
    noise arguments have no effect on it and the bias stays where it is,
    while the propagation with noise of the same derivation, [x1_sim],
    moves the bias by [dt w_b]. *)
Theorem quat_mekf_simulate_ignores_noise
  (t : R) (x : vec) (W : mat) (omega w_g w_b : vec)
  (std_gyro sn_gyro_rw dt : R) :
  (simulate quat_eqs t x omega w_g w_b dt
   = fst (predict quat_eqs t x W omega std_gyro sn_gyro_rw dt) /\
   slice (simulate quat_eqs t x omega w_g w_b dt) 4 7 = slice x 4 7 /\
   skipn 4 (quat_derivation.x1_sim t x omega w_g w_b dt)
   = vadd (skipn 4 x) (vscale dt w_b)) /\
  (simulate mekf_eqs t x omega w_g w_b dt
   = fst (predict mekf_eqs t x W omega std_gyro sn_gyro_rw dt) /\
   slice (simulate mekf_eqs t x omega w_g w_b dt) 4 7 = slice x 4 7 /\
   skipn 4 (mekf_derivation.x1_sim t x omega w_g w_b dt)
   = vadd (skipn 4 x) (vscale dt w_b)).
Proof.
  split; (split; [reflexivity|]; split).
  - rewrite !slice_4_7_skipn. cbn [simulate quat_eqs quat_derivation.eqs].
    unfold quat_derivation.x1.
    rewrite (skipn_rk4 _ 4 (zeros 3)) by (intros; apply quat_xdot_tail).
    now rewrite vscale_zeros, slice_vadd_zeros.
  - apply skipn_rk4. intros. apply quat_xdot_tail.
  - rewrite !slice_4_7_skipn. cbn [simulate mekf_eqs mekf_derivation.eqs].
    unfold mekf_derivation.x1.
    rewrite (skipn_rk4 _ 4 (zeros 3)) by (intros; apply mekf_xdot_tail).
    now rewrite vscale_zeros, slice_vadd_zeros.
  - apply skipn_rk4. intros. apply mekf_xdot_tail.
Qed.

(* ================================================================== *)
(** ** The norm of the quaternion through [predict] *)
(* ================================================================== *)

Lemma mekf_x1_quat_x1 (t : R) (x omega : vec) (dt : R) :
  mekf_derivation.x1 t x omega dt = quat_derivation.x1 t x omega dt.
Proof.
  unfold quat_derivation.x1, mekf_derivation.x1,
    quat_derivation.f_xdot, mekf_derivation.f_xdot,
    quat_derivation.xdot, mekf_derivation.xdot,
    quat_derivation.q, mekf_derivation.q,
    quat_derivation.b_g, mekf_derivation.b_g.
  reflexivity.
Qed.

(** X4.  One [predict] of the quaternion filter or of the MEKF scales the
    squared norm of the quaternion by [1 - th^6/72 + th^8/576], where
    [th = |omega - b| dt / 2]: the integration step does not keep the
    norm, and [predict] does not renormalize. *)
Theorem quat_mekf_predict_norm_factor
  (q0 q1 q2 q3 b0 b1 b2 w0 w1 w2 t h : R) (W : mat)
  (std_gyro sn_gyro_rw : R) :
  let x := [q0; q1; q2; q3; b0; b1; b2] in
  let omega := [w0; w1; w2] in
  let th2 :=
    ((w0 - b0) ^ 2 + (w1 - b1) ^ 2 + (w2 - b2) ^ 2) * h ^ 2 / 4 in
  let n2 := fun v : vec => dot (slice v 0 4) (slice v 0 4) in
  n2 (fst (predict quat_eqs t x W omega std_gyro sn_gyro_rw h))
  = (1 - th2 ^ 3 / 72 + th2 ^ 4 / 576) * n2 x /\
  n2 (fst (predict mekf_eqs t x W omega std_gyro sn_gyro_rw h))
  = (1 - th2 ^ 3 / 72 + th2 ^ 4 / 576) * n2 x.
Proof.
  intros x omega th2 n2.
  destruct (quat_x1_norm_factor q0 q1 q2 q3 b0 b1 b2 w0 w1 w2 t h)
    as [E _].
  split.
  - exact E.
  - unfold mekf_eqs, mekf_derivation.eqs, predict, fst.
    rewrite (mekf_x1_quat_x1 t x omega h). exact E.
Qed.

Lemma norm_factor_ge (u : R) : 1 / 4 <= 1 - u ^ 3 / 72 + u ^ 4 / 576.
Proof.
  assert (H : 1 - u ^ 3 / 72 + u ^ 4 / 576 - 1 / 4
              = (u - 6) ^ 2 * ((u + 2) ^ 2 + 8) / 576) by field.
  assert (0 <= (u - 6) ^ 2 * ((u + 2) ^ 2 + 8)).
  { apply Rmult_le_pos; [apply pow2_ge_0|].
    pose proof (pow2_ge_0 (u + 2)). lra. }
  lra.
Qed.

Lemma norm_factor_le (u : R) :
  0 <= u <= 8 -> 1 - u ^ 3 / 72 + u ^ 4 / 576 <= 1.
Proof.
  intros [H0 H8].
  assert (H : 1 - (1 - u ^ 3 / 72 + u ^ 4 / 576) = u ^ 3 * (8 - u) / 576)
    by field.
  assert (0 <= u ^ 3 * (8 - u)).
  { apply Rmult_le_pos; [|lra]. apply pow_le; lra. }
  lra.
Qed.

Lemma dot4_nonneg (v : vec) : 0 <= dot (slice v 0 4) (slice v 0 4).
Proof. la_symb. nra. Qed.

(** X5.  While [|omega - b| dt <= 4 sqrt 2], a [predict] of the
    quaternion filter or of the MEKF never lengthens the quaternion, and
    it keeps at least a quarter of its squared norm: the quaternion
    shrinks step by step but is never lost. *)
Theorem quat_mekf_predict_norm_bounds
  (q0 q1 q2 q3 b0 b1 b2 w0 w1 w2 t h : R) (W : mat)
  (std_gyro sn_gyro_rw : R) :
  let x := [q0; q1; q2; q3; b0; b1; b2] in
  let omega := [w0; w1; w2] in
  let n2 := fun v : vec => dot (slice v 0 4) (slice v 0 4) in
  ((w0 - b0) ^ 2 + (w1 - b1) ^ 2 + (w2 - b2) ^ 2) * h ^ 2 <= 32 ->
  (1 / 4 * n2 x
   <= n2 (fst (predict quat_eqs t x W omega std_gyro sn_gyro_rw h))
   <= n2 x) /\
  (1 / 4 * n2 x
   <= n2 (fst (predict mekf_eqs t x W omega std_gyro sn_gyro_rw h))
   <= n2 x).
Proof.
  intros x omega n2 Hth.
  destruct (quat_x1_norm_factor q0 q1 q2 q3 b0 b1 b2 w0 w1 w2 t h)
    as [E _].
  fold x in E. fold omega in E.
  unfold mekf_eqs, mekf_derivation.eqs, quat_eqs, quat_derivation.eqs,
    predict, fst.
  rewrite (mekf_x1_quat_x1 t x omega h).
  unfold n2. rewrite E.
  set (th2 :=
         ((w0 - b0) ^ 2 + (w1 - b1) ^ 2 + (w2 - b2) ^ 2) * h ^ 2 / 4) in *.
  pose proof (dot4_nonneg x) as Hn.
  pose proof (norm_factor_ge th2) as Hlo.
  assert (H0 : 0 <= th2).
  { unfold th2. apply Rmult_le_pos; [|lra].
    apply Rmult_le_pos; [|apply pow2_ge_0].
    pose proof (pow2_ge_0 (w0 - b0)). pose proof (pow2_ge_0 (w1 - b1)).
    pose proof (pow2_ge_0 (w2 - b2)). lra. }
  assert (H8 : th2 <= 8) by (unfold th2; lra).
  pose proof (norm_factor_le th2 (conj H0 H8)) as Hhi.
  assert (Hb : 1 / 4 * dot (slice x 0 4) (slice x 0 4)
               <= (1 - th2 ^ 3 / 72 + th2 ^ 4 / 576)
                  * dot (slice x 0 4) (slice x 0 4)
               <= dot (slice x 0 4) (slice x 0 4)).
  { split.
    - apply Rmult_le_compat_r; assumption.
    - rewrite <- (Rmult_1_l (dot (slice x 0 4) (slice x 0 4))) at 2.
      apply Rmult_le_compat_r; assumption. }
  split; exact Hb.
Qed.

Lemma quat_mekf_predict_norm_bounds_witness :
  let x := [1; 0; 0; 0; 0; 0; 0] in
  let n2 := fun v : vec => dot (slice v 0 4) (slice v 0 4) in
  ((10 - 0) ^ 2 + (10 - 0) ^ 2 + (10 - 0) ^ 2) * (1 / 200) ^ 2 <= 32 /\
  1 / 4 * n2 x
  <= n2 (fst (predict quat_eqs 0 x quat_derivation.W0 [10; 10; 10]
                1e-2 1e-2 (1 / 200)))
  <= n2 x.
Proof.
  intros x n2.
  assert (H : ((10 - 0) ^ 2 + (10 - 0) ^ 2 + (10 - 0) ^ 2) * (1 / 200) ^ 2
              <= 32) by lra.
  split; [exact H|].
  exact (proj1 (quat_mekf_predict_norm_bounds 1 0 0 0 0 0 0 10 10 10 0
                  (1 / 200) quat_derivation.W0 1e-2 1e-2 H)).
Defined.

(* ================================================================== *)
(** ** The factor of the right-invariant filters *)
(* ================================================================== *)

(** On a diagonal factor the derivative of the factor is diagonal, for
    any state and any rate: the rotation matrix only meets the zeros
    below the diagonal. *)
Lemma quat_W_dot_diag (x omega : vec)
  (sg srw dt y0 y1 y2 y3 y4 y5 s : R) :
  quat_derivation.f_W_dot_lt x (diag [y0; y1; y2; y3; y4; y5]) sg srw
    omega dt
  = diag [ factor_rate (sg ^ 2) s y0; factor_rate (sg ^ 2) s y1;
           factor_rate (sg ^ 2) s y2;
           factor_rate ((srw / sqrt dt) ^ 2) s y3;
           factor_rate ((srw / sqrt dt) ^ 2) s y4;
           factor_rate ((srw / sqrt dt) ^ 2) s y5 ].
Proof.
  unfold quat_derivation.f_W_dot_lt, quat_derivation.F, quat_derivation.Q,
    quat_derivation.std_gyro_rw, Dcm.from_quat, factor_rate.
  generalize (quat_derivation.q x). intros q.
  la_unfold. list_eq; unfold Rdiv; ring.
Qed.

Lemma mrp_W_dot_diag (x omega : vec)
  (sg srw dt y0 y1 y2 y3 y4 y5 s : R) :
  mrp_derivation.f_W_dot_lt x (diag [y0; y1; y2; y3; y4; y5]) sg srw
    omega dt
  = diag [ factor_rate (sg ^ 2) s y0; factor_rate (sg ^ 2) s y1;
           factor_rate (sg ^ 2) s y2;
           factor_rate ((srw / sqrt dt) ^ 2) s y3;
           factor_rate ((srw / sqrt dt) ^ 2) s y4;
           factor_rate ((srw / sqrt dt) ^ 2) s y5 ].
Proof.
  unfold mrp_derivation.f_W_dot_lt, mrp_derivation.F, mrp_derivation.Q,
    mrp_derivation.std_gyro_rw, Dcm.from_mrp, Dcm.from_quat, factor_rate.
  generalize (Quat.from_mrp (mrp_derivation.r x)). intros q.
  la_unfold. list_eq; unfold Rdiv; ring.
Qed.

Lemma quat_W1_diag (t : R) (x omega : vec)
  (sg srw dt d0 d1 d2 d3 d4 d5 : R) :
  let qg := sg ^ 2 in
  let qr := (srw / sqrt dt) ^ 2 in
  quat_derivation.W1 t x (diag [d0; d1; d2; d3; d4; d5]) omega sg srw dt
  = diag [ rk4 (factor_rate qg) t d0 dt; rk4 (factor_rate qg) t d1 dt;
           rk4 (factor_rate qg) t d2 dt; rk4 (factor_rate qr) t d3 dt;
           rk4 (factor_rate qr) t d4 dt; rk4 (factor_rate qr) t d5 dt ].
Proof.
  intros qg qr. unfold quat_derivation.W1.
  pose (s2 := fun q d => d + dt / 2 * factor_rate q t d).
  pose (s3 := fun q d => d + dt / 2 * factor_rate q (t + dt / 2) (s2 q d)).
  pose (s4 := fun q d => d + dt * factor_rate q (t + dt / 2) (s3 q d)).
  pose (st := fun (s : R -> R -> R) =>
          diag [s qg d0; s qg d1; s qg d2; s qr d3; s qr d4; s qr d5]).
  rewrite (rk4_stages _ t (diag [d0; d1; d2; d3; d4; d5]) dt
             (st (fun q d => factor_rate q t d))
             (st (fun q d => factor_rate q (t + dt / 2) (s2 q d)))
             (st (fun q d => factor_rate q (t + dt / 2) (s3 q d)))
             (st (fun q d => factor_rate q (t + dt) (s4 q d)))
             (st s2) (st s3) (st s4));
    subst st s4 s3 s2;
    first [ apply quat_W_dot_diag
          | la_unfold; list_eq; first [reflexivity | ring] ].
Qed.

Lemma mrp_W1_diag (t : R) (x omega : vec)
  (sg srw dt d0 d1 d2 d3 d4 d5 : R) :
  let qg := sg ^ 2 in
  let qr := (srw / sqrt dt) ^ 2 in
  mrp_derivation.W1 t x (diag [d0; d1; d2; d3; d4; d5]) omega sg srw dt
  = diag [ rk4 (factor_rate qg) t d0 dt; rk4 (factor_rate qg) t d1 dt;
           rk4 (factor_rate qg) t d2 dt; rk4 (factor_rate qr) t d3 dt;
           rk4 (factor_rate qr) t d4 dt; rk4 (factor_rate qr) t d5 dt ].
Proof.
  intros qg qr. unfold mrp_derivation.W1.
  pose (s2 := fun q d => d + dt / 2 * factor_rate q t d).
  pose (s3 := fun q d => d + dt / 2 * factor_rate q (t + dt / 2) (s2 q d)).
  pose (s4 := fun q d => d + dt * factor_rate q (t + dt / 2) (s3 q d)).
  pose (st := fun (s : R -> R -> R) =>
          diag [s qg d0; s qg d1; s qg d2; s qr d3; s qr d4; s qr d5]).
  rewrite (rk4_stages _ t (diag [d0; d1; d2; d3; d4; d5]) dt
             (st (fun q d => factor_rate q t d))
             (st (fun q d => factor_rate q (t + dt / 2) (s2 q d)))
             (st (fun q d => factor_rate q (t + dt / 2) (s3 q d)))
             (st (fun q d => factor_rate q (t + dt) (s4 q d)))
             (st s2) (st s3) (st s4));
    subst st s4 s3 s2;
    first [ apply mrp_W_dot_diag
          | la_unfold; list_eq; first [reflexivity | ring] ].
Qed.

(** X6.  In the two right-invariant filters, [predict] on a diagonal
    factor returns a diagonal factor that depends neither on the state
    nor on the rate: each diagonal entry is integrated on its own, under
    [d' = q / (2 d)] with the variance [q] of its process noise, and the
    MRP filter and the quaternion filter return the same factor. *)
Theorem ri_predict_diagonal_factor (t : R) (x omega : vec)
  (std_gyro sn_gyro_rw dt d0 d1 d2 d3 d4 d5 : R) :
  let W := diag [d0; d1; d2; d3; d4; d5] in
  let qg := std_gyro ^ 2 in
  let qr := (sn_gyro_rw / sqrt dt) ^ 2 in
  let W1 :=
    diag [ rk4 (factor_rate qg) t d0 dt; rk4 (factor_rate qg) t d1 dt;
           rk4 (factor_rate qg) t d2 dt; rk4 (factor_rate qr) t d3 dt;
           rk4 (factor_rate qr) t d4 dt; rk4 (factor_rate qr) t d5 dt ] in
  snd (predict mrp_eqs t x W omega std_gyro sn_gyro_rw dt) = W1 /\
  snd (predict quat_eqs t x W omega std_gyro sn_gyro_rw dt) = W1.
Proof.
  intros W qg qr W1. split.
  - apply mrp_W1_diag.
  - apply quat_W1_diag.
Qed.

(** An entry of the diagonal does not shrink over a step forward:
    its derivative [q / (2 d)] is non-negative at every stage. *)
Lemma rk4_factor_rate_ge (q t d h : R) :
  0 <= q -> 0 < d -> 0 <= h -> d <= rk4 (factor_rate q) t d h.
Proof.
  intros Hq Hd Hh. unfold rk4. cbv [ladd lscale Linear_R].
  assert (Hk : forall s y, 0 < y -> 0 <= factor_rate q s y).
  { intros s y Hy. unfold factor_rate, Rdiv.
    apply Rinv_0_lt_compat in Hy. nra. }
  pose proof (Hk t d Hd) as H1.
  set (k1 := factor_rate q t d) in *.
  assert (Hd2 : 0 < d + h / 2 * k1) by nra.
  pose proof (Hk (t + h / 2) _ Hd2) as H2.
  set (k2 := factor_rate q (t + h / 2) (d + h / 2 * k1)) in *.
  assert (Hd3 : 0 < d + h / 2 * k2) by nra.
  pose proof (Hk (t + h / 2) _ Hd3) as H3.
  set (k3 := factor_rate q (t + h / 2) (d + h / 2 * k2)) in *.
  assert (Hd4 : 0 < d + h * k3) by nra.
  pose proof (Hk (t + h) _ Hd4) as H4.
  set (k4 := factor_rate q (t + h) (d + h * k3)) in *.
  nra.
Qed.

Lemma W0_diag :
  mscale 1e-3 (eye 6) = diag [1e-3; 1e-3; 1e-3; 1e-3; 1e-3; 1e-3].
Proof. la_unfold. list_eq; lra. Qed.

Lemma positive_diagonal_W0 : positive_diagonal (mscale 1e-3 (eye 6)).
Proof.
  exists 1e-3, 1e-3, 1e-3, 1e-3, 1e-3, 1e-3.
  split; [apply W0_diag|]. repeat split; lra.
Qed.

(** The two factors after a step forward from a positive diagonal
    factor. *)
Lemma ri_W1_positive_diagonal (t : R) (x x' omega omega' : vec)
  (W : mat) (sg srw dt : R) :
  positive_diagonal W -> 0 <= dt ->
  positive_diagonal (mrp_derivation.W1 t x W omega sg srw dt) /\
  quat_derivation.W1 t x' W omega' sg srw dt
  = mrp_derivation.W1 t x W omega sg srw dt.
Proof.
  intros (d0 & d1 & d2 & d3 & d4 & d5 & E & H0 & H1 & H2 & H3 & H4 & H5)
    Hdt.
  subst W. rewrite mrp_W1_diag, quat_W1_diag.
  split; [|reflexivity].
  assert (Hg : 0 <= sg ^ 2) by apply pow2_ge_0.
  assert (Hr : 0 <= (srw / sqrt dt) ^ 2) by apply pow2_ge_0.
  do 6 eexists. split; [reflexivity|].
  repeat split;
    (eapply Rlt_le_trans; [|apply rk4_factor_rate_ge]); eassumption.
Qed.




(* ================================================================== *)
(** ** The estimator over a stream of messages *)
(* ================================================================== *)

Lemma length_zipWith {A B C : Type} (f : A -> B -> C) (a : list A) (b : list B) :
  length (zipWith f a b) = Nat.min (length a) (length b).
Proof.
  revert b. induction a as [|x a IH]; intros [|y b]; simpl; auto.
Qed.

Lemma length_imap {A B : Type} (f : nat -> A -> B) (s : nat) (l : list A) :
  length (imap f s l) = length l.
Proof.
  revert s. induction l as [|a l IH]; intros s; simpl; auto.
Qed.

Lemma Forall_imap {A B : Type} (P : A -> Prop) (Q : B -> Prop)
  (f : nat -> A -> B) (s : nat) (l : list A) :
  (forall i a, P a -> Q (f i a)) -> Forall P l -> Forall Q (imap f s l).
Proof.
  intros Hf Hl. revert s. induction Hl; intros s; simpl; constructor; auto.
Qed.

Lemma has_shape_madd (A B : mat) (n m : nat) :
  has_shape A n m -> has_shape B n m -> has_shape (madd A B) n m.
Proof.
  intros [LA FA] [LB FB]. split.
  - unfold madd. rewrite length_zipWith. unfold vec, mat in *. lia.
  - clear LA LB. revert B FB.
    induction FA as [|r A Hr FA IH]; intros [|r' B] FB; simpl;
      try constructor.
    + inversion FB; subst. unfold vadd. rewrite length_zipWith.
      unfold vec in *. lia.
    + inversion FB; subst. now apply IH.
Qed.

Lemma has_shape_mscale (c : R) (A : mat) (n m : nat) :
  has_shape A n m -> has_shape (mscale c A) n m.
Proof.
  intros [LA FA]. split.
  - unfold mscale. now rewrite length_map.
  - unfold mscale. apply Forall_map.
    eapply Forall_impl; [|exact FA]. intros r Hr. simpl.
    unfold vscale. now rewrite length_map.
Qed.

Lemma has_shape_tril (A : mat) (n m : nat) :
  has_shape A n m -> has_shape (tril A) n m.
Proof.
  intros [LA FA]. split.
  - unfold tril. now rewrite length_imap.
  - unfold tril. apply (Forall_imap (fun r => length r = m)); [|exact FA].
    intros i r Hr. now rewrite length_imap.
Qed.

Lemma has_shape_mtimes (A B : mat) (n m : nat) :
  length A = n -> ncols B = m -> has_shape (mtimes A B) n m.
Proof.
  intros LA LB. split.
  - unfold mtimes. now rewrite length_map.
  - unfold mtimes. apply Forall_map. apply Forall_forall. intros r _.
    rewrite length_map. unfold transpose. now rewrite length_map, length_seq.
Qed.

Lemma has_shape_6_6_rows (W : mat) :
  has_shape W 6 6 ->
  exists r0 r1 r2 r3 r4 r5, W = [r0; r1; r2; r3; r4; r5] /\ length r0 = 6%nat.
Proof.
  intros [L F].
  destruct W as [|r0 [|r1 [|r2 [|r3 [|r4 [|r5 [|r6 W]]]]]]]; try discriminate.
  exists r0, r1, r2, r3, r4, r5. split; [reflexivity|].
  now inversion F.
Qed.

Lemma has_shape_sqrt_covariance_predict (W F Q : mat) :
  has_shape W 6 6 -> length F = 6%nat -> length Q = 6%nat ->
  has_shape (sqrt_covariance_predict W F Q) 6 6.
Proof.
  intros HW HF HQ.
  destruct (has_shape_6_6_rows W HW) as (r0 & r1 & r2 & r3 & r4 & r5 & E & L0).
  subst W. destruct r0 as [|a r0]; [discriminate|].
  unfold sqrt_covariance_predict. apply has_shape_madd.
  - apply has_shape_mtimes; [exact HF | exact L0].
  - apply has_shape_mtimes.
    + unfold mscale. now rewrite length_map.
    + reflexivity.
Qed.

Lemma rk4_has_shape (f : R -> mat -> mat) (t : R) (W : mat) (h : R) (n m : nat) :
  (forall s Y, has_shape Y n m -> has_shape (f s Y) n m) ->
  has_shape W n m -> has_shape (rk4 f t W h) n m.
Proof.
  intros Hf HW. unfold rk4.
  change (@ladd mat _) with madd.
  change (@lscale mat _) with mscale.
  repeat first [ apply has_shape_madd | apply has_shape_mscale
               | apply Hf | exact HW ].
Qed.

Lemma length_vadd (a b : vec) :
  length (vadd a b) = Nat.min (length a) (length b).
Proof. apply length_zipWith. Qed.

Lemma length_vscale (c : R) (a : vec) : length (vscale c a) = length a.
Proof. apply length_map. Qed.

Lemma rk4_length (f : R -> vec -> vec) (t : R) (y : vec) (h : R) (n : nat) :
  (forall s z, length (f s z) = n) -> length y = n ->
  length (rk4 f t y h) = n.
Proof.
  intros Hf Hy. unfold rk4.
  change (@ladd vec _) with vadd.
  change (@lscale vec _) with vscale.
  rewrite !length_vadd, !length_vscale, !length_vadd, !length_vscale, !Hf, Hy.
  lia.
Qed.

Lemma length_predict_x (e : Eqs) (t : R) (x : vec) (W : mat) (omega : vec) (sg srw dt : R) :
  e = mrp_eqs \/ e = quat_eqs \/ e = mekf_eqs ->
  length x = 7%nat ->
  length (fst (predict e t x W omega sg srw dt)) = 7%nat.
Proof.
  intros [E|[E|E]] Hx; subst e;
    cbn [predict mrp_eqs quat_eqs mekf_eqs mrp_derivation.eqs
         quat_derivation.eqs mekf_derivation.eqs fst].
  - unfold mrp_derivation.x1, set_head.
    rewrite length_app, length_shadow_if_required, length_skipn.
    rewrite (rk4_length _ _ _ _ 7%nat); [reflexivity | | exact Hx].
    intros; reflexivity.
  - unfold quat_derivation.x1. apply rk4_length; [|exact Hx].
    intros; reflexivity.
  - unfold mekf_derivation.x1. apply rk4_length; [|exact Hx].
    intros; reflexivity.
Qed.

Lemma has_shape_predict_W (e : Eqs) (t : R) (x : vec) (W : mat) (omega : vec) (sg srw dt : R) :
  e = mrp_eqs \/ e = quat_eqs \/ e = mekf_eqs ->
  has_shape W 6 6 ->
  has_shape (snd (predict e t x W omega sg srw dt)) 6 6.
Proof.
  intros [E|[E|E]] HW; subst e;
    cbn [predict mrp_eqs quat_eqs mekf_eqs mrp_derivation.eqs
         quat_derivation.eqs mekf_derivation.eqs snd].
  - unfold mrp_derivation.W1. apply rk4_has_shape; [|exact HW].
    intros s Y HY. unfold mrp_derivation.f_W_dot_lt.
    apply has_shape_tril, has_shape_sqrt_covariance_predict;
      [exact HY | reflexivity | reflexivity].
  - unfold quat_derivation.W1. apply rk4_has_shape; [|exact HW].
    intros s Y HY. unfold quat_derivation.f_W_dot_lt.
    apply has_shape_tril, has_shape_sqrt_covariance_predict;
      [exact HY | reflexivity | reflexivity].
  - unfold mekf_derivation.W1. apply rk4_has_shape; [|exact HW].
    intros s Y HY. unfold mekf_derivation.f_W_dot_lt.
    apply has_shape_tril, has_shape_sqrt_covariance_predict;
      [exact HY | reflexivity | reflexivity].
Qed.

Lemma strictly_upper_zero_predict_W (e : Eqs) (t : R) (x : vec) (W : mat) (omega : vec) (sg srw dt : R) :
  e = mrp_eqs \/ e = quat_eqs \/ e = mekf_eqs ->
  strictly_upper_zero W ->
  strictly_upper_zero (snd (predict e t x W omega sg srw dt)).
Proof.
  intros [E|[E|E]] HW; subst e;
    cbn [predict mrp_eqs quat_eqs mekf_eqs mrp_derivation.eqs
         quat_derivation.eqs mekf_derivation.eqs snd];
    unfold mrp_derivation.W1, quat_derivation.W1, mekf_derivation.W1;
    (apply rk4_strictly_upper_zero; [|exact HW]); intros s Y;
    apply strictly_upper_zero_tril.
Qed.

Lemma strictly_upper_zero_W0 : strictly_upper_zero (mscale 1e-3 (eye 6)).
Proof.
  apply strictly_upper_zero_mscale. intros i j Hij.
  do 6 (destruct i as [|i];
        [ do 6 (destruct j as [|j]; [first [lia | reflexivity]|]);
          simpl; now destruct j | ]).
  simpl. now destruct i, j.
Qed.

Lemma AttitudeEstimator_init_ok (e : Eqs) :
  e = mrp_eqs \/ e = quat_eqs \/ e = mekf_eqs ->
  estimator_ok (AttitudeEstimator_init e).
Proof.
  intros He. unfold estimator_ok. split; [exact He|].
  destruct He as [E|[E|E]]; subst e; repeat split;
    try apply has_shape_W0; try apply strictly_upper_zero_W0.
Qed.

Lemma length_get_state (e : Eqs) (x : vec) :
  e = mrp_eqs \/ e = quat_eqs \/ e = mekf_eqs ->
  length (fst (get_state e x)) = 4%nat /\ length (snd (get_state e x)) = 3%nat.
Proof.
  intros [E|[E|E]]; subst e; split; try reflexivity.
  cbn [get_state mrp_eqs mrp_derivation.eqs fst].
  unfold mrp_derivation.q, Quat.from_mrp.
  destruct (Req_dec_T (el (slice x 0 4) 3) 0); reflexivity.
Qed.

Lemma imu_callback_ok (self : AttitudeEstimator) (msg : Imu) (start stop : R) :
  estimator_ok self ->
  estimator_ok (fst (imu_callback self msg start stop)) /\
  Forall published_ok (snd (imu_callback self msg start stop)).
Proof.
  intros (He & Hnx & Hne & Hx & HW & HU).
  unfold imu_callback. cbn [fst snd].
  split.
  - unfold estimator_ok. cbn [est_eqs est_x est_W n_x n_e].
    repeat split; try assumption.
    + now apply length_predict_x.
    + now apply has_shape_predict_W.
    + now apply has_shape_predict_W.
    + now apply strictly_upper_zero_predict_W.
  - repeat constructor; cbn [vs_q vs_b es_n_x es_x es_W].
    + now apply length_get_state.
    + now apply length_get_state.
    + exact Hnx.
    + now apply length_predict_x.
    + rewrite length_map, length_seq. exact Hne.
Qed.

Lemma feed_ok (msgs : list (Imu * (R * R))) (self : AttitudeEstimator) :
  estimator_ok self ->
  estimator_ok (fst (feed self msgs)) /\
  t_last_imu (fst (feed self msgs)) = last_time (t_last_imu self) msgs /\
  length (snd (feed self msgs)) = (2 * length msgs)%nat /\
  Forall published_ok (snd (feed self msgs)).
Proof.
  revert self. induction msgs as [|[msg [start stop]] msgs IH]; intros self Hok.
  - simpl. repeat split; try apply Hok. constructor.
  - destruct (imu_callback_ok self msg start stop Hok) as [Hok' Hpub].
    destruct (IH _ Hok') as (H1 & H2 & H3 & H4).
    cbn [feed fst snd]. repeat split; try apply H1.
    + rewrite H2. reflexivity.
    + rewrite length_app, H3. simpl. lia.
    + apply Forall_app. split; assumption.
Qed.


(** X8.  An [AttitudeEstimator] bound to any of the three derivations
    keeps its shape over any stream of [Imu] messages, whatever their
    timestamps and their gyro readings: the state has [n_x = 7] numbers,
    the factor is 6x6 with zeros above the diagonal, [t_last_imu] is the
    time of the last message, and every message is answered by exactly
    two publications of the right dimensions. *)
Theorem estimator_stream_invariants (msgs : list (Imu * (R * R))) :
  let run := fun eqs => feed (AttitudeEstimator_init eqs) msgs in
  let ok := fun eqs =>
    estimator_ok (fst (run eqs)) /\
    t_last_imu (fst (run eqs)) = last_time 0 msgs /\
    length (snd (run eqs)) = (2 * length msgs)%nat /\
    Forall published_ok (snd (run eqs)) in
  ok mrp_eqs /\ ok quat_eqs /\ ok mekf_eqs.
Proof.
  intros run ok. unfold ok, run.
  split; [|split].
  - apply (feed_ok msgs (AttitudeEstimator_init mrp_eqs)),
      AttitudeEstimator_init_ok.
    left. reflexivity.
  - apply (feed_ok msgs (AttitudeEstimator_init quat_eqs)),
      AttitudeEstimator_init_ok.
    right. left. reflexivity.
  - apply (feed_ok msgs (AttitudeEstimator_init mekf_eqs)),
      AttitudeEstimator_init_ok.
    right. right. reflexivity.
Qed.

(** One message through the estimators of the two right-invariant
    filters, whose factors agree and have a positive diagonal. *)
Lemma ri_imu_callback_factor (s1 s2 : AttitudeEstimator) (msg : Imu)
  (start stop : R) :
  est_eqs s1 = mrp_eqs -> est_eqs s2 = quat_eqs ->
  est_W s2 = est_W s1 -> t_last_imu s2 = t_last_imu s1 ->
  positive_diagonal (est_W s1) ->
  let s1' := fst (imu_callback s1 msg start stop) in
  let s2' := fst (imu_callback s2 msg start stop) in
  est_eqs s1' = mrp_eqs /\ est_eqs s2' = quat_eqs /\
  est_W s2' = est_W s1' /\ t_last_imu s2' = t_last_imu s1' /\
  positive_diagonal (est_W s1').
Proof.
  intros E1 E2 EW Et HW s1' s2'.
  unfold s1', s2', imu_callback.
  cbn [fst est_eqs est_W t_last_imu].
  rewrite E1, E2, EW, Et.
  pose proof (compute_dt_pos (imu_time msg) (t_last_imu s1)) as Hdt.
  destruct (ri_W1_positive_diagonal (imu_time msg) (est_x s1) (est_x s2)
              (imu_gyro msg) (imu_gyro msg) (est_W s1) std_gyro sn_gyro_rw
              (compute_dt (imu_time msg) (t_last_imu s1)) HW
              (Rlt_le _ _ Hdt)) as [Hp Hq].
  repeat split; assumption.
Qed.

Lemma ri_feed_factor (msgs : list (Imu * (R * R)))
  (s1 s2 : AttitudeEstimator) :
  est_eqs s1 = mrp_eqs -> est_eqs s2 = quat_eqs ->
  est_W s2 = est_W s1 -> t_last_imu s2 = t_last_imu s1 ->
  positive_diagonal (est_W s1) ->
  est_W (fst (feed s2 msgs)) = est_W (fst (feed s1 msgs)) /\
  positive_diagonal (est_W (fst (feed s1 msgs))).
Proof.
  revert s1 s2.
  induction msgs as [|[msg [start stop]] msgs IH];
    intros s1 s2 E1 E2 EW Et HW.
  - simpl. split; assumption.
  - destruct (ri_imu_callback_factor s1 s2 msg start stop E1 E2 EW Et HW)
      as (E1' & E2' & EW' & Et' & HW').
    cbn [feed fst]. now apply IH.
Qed.

(** X9.  Over any stream of [Imu] messages the estimators of the two
    right-invariant filters hold the same factor, and this factor is
    diagonal with a positive diagonal: for these two estimators the
    diagonal published on [<name>_status] is the whole factor, and it
    never becomes zero or negative. *)
Theorem ri_estimators_factor (msgs : list (Imu * (R * R))) :
  let W1 := est_W (fst (feed (AttitudeEstimator_init mrp_eqs) msgs)) in
  let W2 := est_W (fst (feed (AttitudeEstimator_init quat_eqs) msgs)) in
  W2 = W1 /\ positive_diagonal W1.
Proof.
  intros W1 W2.
  apply (ri_feed_factor msgs (AttitudeEstimator_init mrp_eqs)
           (AttitudeEstimator_init quat_eqs)).
  - reflexivity.
  - reflexivity.
  - reflexivity.
  - reflexivity.
  - apply positive_diagonal_W0.
Qed.

(** A stream of messages with the rate [(0,0,0)], through an estimator
    whose state is at rest under this rate. *)
Lemma feed_at_rest (eqs : Eqs) (x0 : vec)
  (msgs : list (Imu * (R * R))) (self : AttitudeEstimator) :
  (forall t W dt,
      fst (predict eqs t x0 W [0; 0; 0] std_gyro sn_gyro_rw dt) = x0) ->
  get_state eqs x0 = ([1; 0; 0; 0], [0; 0; 0]) ->
  est_eqs self = eqs -> est_x self = x0 ->
  Forall (fun m => imu_gyro (fst m) = [0; 0; 0]) msgs ->
  est_x (fst (feed self msgs)) = x0 /\
  Forall reports_identity (snd (feed self msgs)).
Proof.
  intros Hfix Hget. revert self.
  induction msgs as [|[msg [start stop]] msgs IH]; intros self Ee Ex Hm.
  - simpl. split; [exact Ex | constructor].
  - apply Forall_cons_iff in Hm. destruct Hm as [Hg Hrest]. simpl in Hg.
    cbn [feed fst snd].
    assert (Hx : est_x (fst (imu_callback self msg start stop)) = x0).
    { unfold imu_callback. cbn [fst est_x]. rewrite Ee, Ex, Hg.
      apply Hfix. }
    destruct (IH (fst (imu_callback self msg start stop))) as [H1 H2];
      [exact Ee | exact Hx | exact Hrest |].
    split; [exact H1|].
    apply Forall_app. split; [|exact H2].
    unfold imu_callback. cbn [snd].
    rewrite Ee, Ex, Hg, Hfix, Hget.
    repeat constructor.
Qed.

(** X10.  No drift without excitation, at the estimator: an
    [AttitudeEstimator] of any of the three derivations that only
    receives messages with the gyro reading [(0,0,0)], at any timestamps
    (repeated or decreasing ones as well), keeps its initial state and
    publishes the quaternion [(1,0,0,0)] and the bias [(0,0,0)] after
    every message. *)
Theorem estimator_at_rest (msgs : list (Imu * (R * R))) :
  Forall (fun m => imu_gyro (fst m) = [0; 0; 0]) msgs ->
  let run := fun eqs => feed (AttitudeEstimator_init eqs) msgs in
  (est_x (fst (run mrp_eqs)) = fst (constants mrp_eqs) /\
   Forall reports_identity (snd (run mrp_eqs))) /\
  (est_x (fst (run quat_eqs)) = fst (constants quat_eqs) /\
   Forall reports_identity (snd (run quat_eqs))) /\
  (est_x (fst (run mekf_eqs)) = fst (constants mekf_eqs) /\
   Forall reports_identity (snd (run mekf_eqs))).
Proof.
  intros Hm run. unfold run. split; [|split].
  - apply (feed_at_rest mrp_eqs mrp_derivation.x0).
    + intros. apply mrp_x1_rest.
    + change (get_state mrp_eqs mrp_derivation.x0)
        with (Quat.from_mrp [0; 0; 0; 0], [0; 0; 0]).
      now rewrite from_mrp_identity.
    + reflexivity.
    + reflexivity.
    + exact Hm.
  - apply (feed_at_rest quat_eqs quat_derivation.x0).
    + intros. apply quat_x1_rest.
    + reflexivity.
    + reflexivity.
    + reflexivity.
    + exact Hm.
  - apply (feed_at_rest mekf_eqs mekf_derivation.x0).
    + intros. apply mekf_x1_rest.
    + reflexivity.
    + reflexivity.
    + reflexivity.
    + exact Hm.
Qed.

Lemma estimator_at_rest_witness :
  let msgs :=
    [ ({| imu_time := 0; imu_gyro := [0; 0; 0] |}, (0, 0));
      ({| imu_time := 1 / 200; imu_gyro := [0; 0; 0] |}, (0, 0));
      ({| imu_time := 1 / 200; imu_gyro := [0; 0; 0] |}, (0, 0)) ] in
  Forall (fun m => imu_gyro (fst m) = [0; 0; 0]) msgs /\
  est_x (fst (feed (AttitudeEstimator_init quat_eqs) msgs))
  = fst (constants quat_eqs).
Proof.
  intros msgs.
  assert (H : Forall (fun m => imu_gyro (fst m) = [0; 0; 0]) msgs)
    by (repeat constructor).
  split; [exact H|].
  exact (proj1 (proj1 (proj2 (estimator_at_rest msgs H)))).
Defined.

(* ================================================================== *)
(** ** One turn of the simulator *)
(* ================================================================== *)

Lemma Simulator_omega_bounds (t : R) (i : nat) :
  0 <= el (Simulator_omega t) i <= 20.
Proof.
  unfold Simulator_omega, el.
  destruct i as [|[|[|i]]]; simpl.
  - pose proof (SIN_bound (2 * PI * 0.1 * t + 1)). lra.
  - pose proof (SIN_bound (2 * PI * 0.2 * t + 2)). lra.
  - pose proof (SIN_bound (2 * PI * 0.3 * t + 3)). lra.
  - destruct i; lra.
Qed.

(** X11.  One turn of the simulator loop, at any time, from any truth
    state, for any draws and parameter values: each component of the
    published rate lies between 0 and 20 rad/s; the two messages carry
    the time of the turn and the next turn is [dt] later; the MRP of the
    new truth state has magnitude at most one and the published
    quaternion has norm one; the truth bias has moved by [dt] times
    [1e-3] times the draw [n_b]. *)
Theorem Simulator_run_cycle_spec (w_gyro dt t : R) (x n_g n_b n_imu : vec) :
  let r := Simulator_run_cycle w_gyro dt t x n_g n_b n_imu in
  let x' := snd (fst r) in
  let state := fst (snd r) in
  let imu := snd (snd r) in
  (forall i : nat, 0 <= el (vs_omega state) i <= 20) /\
  vs_time state = t /\ imu_time imu = t /\ fst (fst r) = t + dt /\
  norm_2 (slice x' 0 3) <= 1 /\
  norm_2 (vs_q state) = 1 /\
  vs_b state = slice x' 4 7 /\
  skipn 4 x' = vadd (skipn 4 x) (vscale dt (vscale 1e-3 n_b)).
Proof.
  intros r x' state imu.
  split; [intros i; apply Simulator_omega_bounds|].
  repeat (split; [reflexivity|]).
  split; [|split; [|split; [reflexivity|]]].
  - unfold x', r, Simulator_run_cycle. cbn [fst snd].
    cbn [simulate mrp_eqs mrp_derivation.eqs].
    unfold mrp_derivation.x1_sim.
    rewrite slice_set_head_shadow_if_required.
    apply norm_2_shadow_if_required.
  - apply mrp_get_state_unit_norm.
  - unfold x', r, Simulator_run_cycle. cbn [fst snd].
    cbn [simulate mrp_eqs mrp_derivation.eqs].
    unfold mrp_derivation.x1_sim.
    rewrite skipn_set_head_shadow.
    apply skipn_rk4. intros. apply mrp_xdot_tail.
Qed.

(* ================================================================== *)
(** ** What the factor of [predict] depends on *)
(* ================================================================== *)

(** X12.  In the two right-invariant filters the factor returned by
    [predict] depends on the state only through its rotation part, and
    depends neither on the gyro reading nor on the time: two calls whose
    states agree on the first four entries return the same factor,
    whatever their biases, their rates and their times. *)
Theorem ri_factor_ignores_rate_and_bias
  (t t' : R) (x x' : vec) (W : mat) (omega omega' : vec)
  (std_gyro sn_gyro_rw dt : R) :
  slice x 0 4 = slice x' 0 4 ->
  snd (predict mrp_eqs t x W omega std_gyro sn_gyro_rw dt)
  = snd (predict mrp_eqs t' x' W omega' std_gyro sn_gyro_rw dt) /\
  snd (predict quat_eqs t x W omega std_gyro sn_gyro_rw dt)
  = snd (predict quat_eqs t' x' W omega' std_gyro sn_gyro_rw dt).
Proof.
  intros H.
  unfold mrp_eqs, mrp_derivation.eqs, quat_eqs, quat_derivation.eqs,
    predict, snd.
  unfold mrp_derivation.W1, quat_derivation.W1, rk4,
    mrp_derivation.f_W_dot_lt, quat_derivation.f_W_dot_lt,
    mrp_derivation.F, quat_derivation.F, mrp_derivation.r,
    quat_derivation.q.
  rewrite H. split; reflexivity.
Qed.

Lemma ri_factor_ignores_rate_and_bias_witness :
  slice [1; 0; 0; 0; 0; 0; 0] 0 4 = slice [1; 0; 0; 0; 1; 2; 3] 0 4 /\
  snd (predict mrp_eqs 0 [1; 0; 0; 0; 0; 0; 0] mrp_derivation.W0
         [10; 10; 10] 1e-2 1e-2 (1 / 200))
  = snd (predict mrp_eqs 1 [1; 0; 0; 0; 1; 2; 3] mrp_derivation.W0
           [0; 0; 0] 1e-2 1e-2 (1 / 200)).
Proof.
  assert (H : slice [1; 0; 0; 0; 0; 0; 0] 0 4
              = slice [1; 0; 0; 0; 1; 2; 3] 0 4) by reflexivity.
  split; [exact H|].
  exact (proj1 (ri_factor_ignores_rate_and_bias 0 1 [1; 0; 0; 0; 0; 0; 0]
                  [1; 0; 0; 0; 1; 2; 3] mrp_derivation.W0 [10; 10; 10]
                  [0; 0; 0] 1e-2 1e-2 (1 / 200) H)).
Defined.

(** X13.  In the MEKF the factor returned by [predict] depends on the
    state and on the gyro reading only through the bias-corrected rate
    [omega - b_g]: two calls with the same corrected rate return the same
    factor, whatever their quaternions and their times. *)
Theorem mekf_factor_ignores_attitude
  (t t' : R) (x x' : vec) (W : mat) (omega omega' : vec)
  (std_gyro sn_gyro_rw dt : R) :
  vsub omega (slice x 4 7) = vsub omega' (slice x' 4 7) ->
  snd (predict mekf_eqs t x W omega std_gyro sn_gyro_rw dt)
  = snd (predict mekf_eqs t' x' W omega' std_gyro sn_gyro_rw dt).
Proof.
  intros H.
  unfold mekf_eqs, mekf_derivation.eqs, predict, snd.
  unfold mekf_derivation.W1, rk4, mekf_derivation.f_W_dot_lt,
    mekf_derivation.F, mekf_derivation.b_g.
  rewrite H. reflexivity.
Qed.

Lemma mekf_factor_ignores_attitude_witness :
  vsub [10; 10; 10] (slice [1; 0; 0; 0; 0; 0; 0] 4 7)
  = vsub [10; 10; 10] (slice [0; 1; 0; 0; 0; 0; 0] 4 7) /\
  snd (predict mekf_eqs 0 [1; 0; 0; 0; 0; 0; 0] mekf_derivation.W0
         [10; 10; 10] 1e-2 1e-2 (1 / 200))
  = snd (predict mekf_eqs 1 [0; 1; 0; 0; 0; 0; 0] mekf_derivation.W0
           [10; 10; 10] 1e-2 1e-2 (1 / 200)).
Proof.
  assert (H : vsub [10; 10; 10] (slice [1; 0; 0; 0; 0; 0; 0] 4 7)
              = vsub [10; 10; 10] (slice [0; 1; 0; 0; 0; 0; 0] 4 7))
    by reflexivity.
  split; [exact H|].
  exact (mekf_factor_ignores_attitude 0 1 [1; 0; 0; 0; 0; 0; 0]
           [0; 1; 0; 0; 0; 0; 0] mekf_derivation.W0 [10; 10; 10]
           [10; 10; 10] 1e-2 1e-2 (1 / 200) H).
Defined.

(* ================================================================== *)
(** ** The bias of the estimators *)
(* ================================================================== *)

Lemma predict_x_bias (e : Eqs) (t : R) (x : vec) (W : mat) (omega : vec)
  (sg srw dt : R) :
  e = mrp_eqs \/ e = quat_eqs \/ e = mekf_eqs ->
  slice (fst (predict e t x W omega sg srw dt)) 4 7 = slice x 4 7.
Proof.
  intros [E|[E|E]]; subst e; rewrite !slice_4_7_skipn.
  - unfold mrp_eqs, mrp_derivation.eqs, predict, fst, mrp_derivation.x1.
    rewrite skipn_set_head_shadow.
    rewrite (skipn_rk4 _ 4 (zeros 3)) by (intros; apply mrp_xdot_tail).
    now rewrite vscale_zeros, slice_vadd_zeros.
  - unfold quat_eqs, quat_derivation.eqs, predict, fst, quat_derivation.x1.
    rewrite (skipn_rk4 _ 4 (zeros 3)) by (intros; apply quat_xdot_tail).
    now rewrite vscale_zeros, slice_vadd_zeros.
  - unfold mekf_eqs, mekf_derivation.eqs, predict, fst, mekf_derivation.x1.
    rewrite (skipn_rk4 _ 4 (zeros 3)) by (intros; apply mekf_xdot_tail).
    now rewrite vscale_zeros, slice_vadd_zeros.
Qed.

Lemma get_state_bias (e : Eqs) (x : vec) :
  e = mrp_eqs \/ e = quat_eqs \/ e = mekf_eqs ->
  snd (get_state e x) = slice x 4 7.
Proof. intros [E|[E|E]]; subst e; reflexivity. Qed.

Lemma feed_zero_bias (e : Eqs) (msgs : list (Imu * (R * R)))
  (self : AttitudeEstimator) :
  e = mrp_eqs \/ e = quat_eqs \/ e = mekf_eqs ->
  est_eqs self = e -> slice (est_x self) 4 7 = [0; 0; 0] ->
  slice (est_x (fst (feed self msgs))) 4 7 = [0; 0; 0] /\
  Forall reports_zero_bias (snd (feed self msgs)).
Proof.
  intros He. revert self.
  induction msgs as [|[msg [start stop]] msgs IH]; intros self Ee Hb.
  - simpl. split; [exact Hb | constructor].
  - cbn [feed fst snd].
    assert (Hx : slice (est_x (fst (imu_callback self msg start stop))) 4 7
                 = [0; 0; 0]).
    { unfold imu_callback. cbn [fst est_x]. rewrite Ee.
      rewrite (predict_x_bias e) by exact He. exact Hb. }
    destruct (IH (fst (imu_callback self msg start stop))) as [H1 H2];
      [exact Ee | exact Hx |].
    split; [exact H1|].
    apply Forall_app. split; [|exact H2].
    unfold imu_callback in Hx |- *. cbn [fst snd est_x] in Hx |- *.
    constructor; [|constructor; [|constructor]];
      cbn [reports_zero_bias vs_b es_x].
    + rewrite Ee, (get_state_bias e) by exact He.
      rewrite Ee in Hx. exact Hx.
    + exact Hx.
Qed.

(** X14.  The estimators never estimate a bias: [imu_callback] has no
    correction step and [predict] keeps the bias, so over any stream of
    [Imu] messages the bias of each of the three estimators stays at
    [(0,0,0)], in its state and in everything it publishes. *)
Theorem estimators_never_estimate_bias (msgs : list (Imu * (R * R))) :
  let run := fun eqs => feed (AttitudeEstimator_init eqs) msgs in
  let ok := fun eqs =>
    slice (est_x (fst (run eqs))) 4 7 = [0; 0; 0] /\
    Forall reports_zero_bias (snd (run eqs)) in
  ok mrp_eqs /\ ok quat_eqs /\ ok mekf_eqs.
Proof.
  intros run ok. unfold ok, run.
  split; [|split].
  - apply (feed_zero_bias mrp_eqs).
    + left. reflexivity.
    + reflexivity.
    + reflexivity.
  - apply (feed_zero_bias quat_eqs).
    + right. left. reflexivity.
    + reflexivity.
    + reflexivity.
  - apply (feed_zero_bias mekf_eqs).
    + right. right. reflexivity.
    + reflexivity.
    + reflexivity.
Qed.

(* ================================================================== *)
(** ** The rotation of the MRP estimator *)
(* ================================================================== *)

Lemma mrp_x1_in_ball (t : R) (x omega : vec) (dt : R) :
  norm_2 (slice (mrp_derivation.x1 t x omega dt) 0 3) <= 1.
Proof.
  unfold mrp_derivation.x1.
  rewrite slice_set_head_shadow_if_required.
  apply norm_2_shadow_if_required.
Qed.

Lemma mrp_feed_unit (msgs : list (Imu * (R * R)))
  (self : AttitudeEstimator) :
  est_eqs self = mrp_eqs -> norm_2 (slice (est_x self) 0 3) <= 1 ->
  norm_2 (slice (est_x (fst (feed self msgs))) 0 3) <= 1 /\
  Forall reports_unit_quaternion (snd (feed self msgs)).
Proof.
  revert self.
  induction msgs as [|[msg [start stop]] msgs IH]; intros self Ee Hb.
  - simpl. split; [exact Hb | constructor].
  - cbn [feed fst snd].
    assert (Hx : norm_2 (slice (est_x (fst (imu_callback self msg start stop)))
                           0 3) <= 1).
    { unfold imu_callback. cbn [fst est_x]. rewrite Ee.
      unfold mrp_eqs, mrp_derivation.eqs, predict, fst.
      apply mrp_x1_in_ball. }
    destruct (IH (fst (imu_callback self msg start stop))) as [H1 H2];
      [exact Ee | exact Hx |].
    split; [exact H1|].
    apply Forall_app. split; [|exact H2].
    unfold imu_callback in Hx |- *. cbn [fst snd est_x] in Hx |- *.
    constructor; [|constructor; [|constructor]];
      cbn [reports_unit_quaternion vs_q es_x].
    + rewrite Ee. apply mrp_get_state_unit_norm.
    + exact Hx.
Qed.

(** X15.  Over any stream of [Imu] messages the MRP estimator keeps its
    MRP inside the unit ball and every quaternion it publishes has norm
    one, whatever the timestamps and the gyro readings. *)
Theorem mrp_estimator_unit_quaternion (msgs : list (Imu * (R * R))) :
  let r := feed (AttitudeEstimator_init mrp_eqs) msgs in
  norm_2 (slice (est_x (fst r)) 0 3) <= 1 /\
  Forall reports_unit_quaternion (snd r).
Proof.
  intros r. unfold r. apply mrp_feed_unit.
  - reflexivity.
  - change (norm_2 [0; 0; 0] <= 1). unfold norm_2, dot. simpl.
    replace (0 * 0 + (0 * 0 + (0 * 0 + 0))) with 0 by ring.
    rewrite sqrt_0. lra.
Qed.

(* ================================================================== *)
(** ** The quaternion estimator and the MEKF estimator *)
(* ================================================================== *)

Lemma quat_mekf_predict_x (t : R) (x : vec) (W W' : mat) (omega : vec)
  (sg srw dt : R) :
  fst (predict mekf_eqs t x W' omega sg srw dt)
  = fst (predict quat_eqs t x W omega sg srw dt).
Proof.
  unfold quat_eqs, quat_derivation.eqs, mekf_eqs, mekf_derivation.eqs,
    predict, fst.
  apply mekf_x1_quat_x1.
Qed.

Lemma quat_mekf_get_state (x : vec) :
  get_state mekf_eqs x = get_state quat_eqs x.
Proof.
  unfold mekf_eqs, mekf_derivation.eqs, quat_eqs, quat_derivation.eqs,
    get_state, mekf_derivation.q, quat_derivation.q,
    mekf_derivation.b_g, quat_derivation.b_g.
  reflexivity.
Qed.

Lemma quat_mekf_feed_same (msgs : list (Imu * (R * R)))
  (s1 s2 : AttitudeEstimator) :
  est_eqs s1 = quat_eqs -> est_eqs s2 = mekf_eqs ->
  est_x s2 = est_x s1 -> n_x s2 = n_x s1 ->
  t_last_imu s2 = t_last_imu s1 ->
  est_x (fst (feed s2 msgs)) = est_x (fst (feed s1 msgs)) /\
  Forall2 same_report (snd (feed s1 msgs)) (snd (feed s2 msgs)).
Proof.
  revert s1 s2.
  induction msgs as [|[msg [start stop]] msgs IH];
    intros s1 s2 E1 E2 Ex En Et.
  - simpl. split; [exact Ex | constructor].
  - cbn [feed fst snd].
    assert (Hx : est_x (fst (imu_callback s2 msg start stop))
                 = est_x (fst (imu_callback s1 msg start stop))).
    { unfold imu_callback. cbn [fst est_x].
      rewrite E1, E2, Ex, Et. apply quat_mekf_predict_x. }
    destruct (IH (fst (imu_callback s1 msg start stop))
                 (fst (imu_callback s2 msg start stop))) as [H1 H2];
      [exact E1 | exact E2 | exact Hx | exact En | reflexivity |].
    split; [exact H1|].
    apply Forall2_app; [|exact H2].
    unfold imu_callback in Hx |- *. cbn [fst snd est_x] in Hx |- *.
    constructor; [|constructor; [|constructor]]; cbn [same_report].
    + rewrite Hx, E2, E1.
      rewrite (quat_mekf_get_state
                 (fst (predict quat_eqs (imu_time msg) (est_x s1) (est_W s1)
                         (imu_gyro msg) std_gyro sn_gyro_rw
                         (compute_dt (imu_time msg) (t_last_imu s1))))).
      reflexivity.
    + cbn [es_time es_n_x es_x]. repeat split; auto.
Qed.

(** X16.  Over any stream of [Imu] messages the quaternion estimator
    and the MEKF estimator hold the same state, and message by message
    they publish the same vehicle state and the same status time, [n_x]
    and state: they can differ only in the factor. *)
Theorem quat_mekf_estimators_same_state (msgs : list (Imu * (R * R))) :
  let rq := feed (AttitudeEstimator_init quat_eqs) msgs in
  let rm := feed (AttitudeEstimator_init mekf_eqs) msgs in
  est_x (fst rm) = est_x (fst rq) /\
  Forall2 same_report (snd rq) (snd rm).
Proof.
  intros rq rm. unfold rq, rm. apply quat_mekf_feed_same.
  - reflexivity.
  - reflexivity.
  - unfold AttitudeEstimator_init, est_x, mekf_eqs, mekf_derivation.eqs,
      quat_eqs, quat_derivation.eqs, constants, fst,
      mekf_derivation.x0, quat_derivation.x0.
    reflexivity.
  - unfold AttitudeEstimator_init, n_x, mekf_eqs, mekf_derivation.eqs,
      quat_eqs, quat_derivation.eqs, constants, fst,
      mekf_derivation.x0, quat_derivation.x0.
    reflexivity.
  - unfold AttitudeEstimator_init, t_last_imu. reflexivity.
Qed.

(* ================================================================== *)
(** ** The norm of the quaternion over a stream *)
(* ================================================================== *)

Lemma quat_x1_norm_bounds (t : R) (x omega : vec) (h : R) :
  length x = 7%nat -> length omega = 3%nat ->
  slice x 4 7 = [0; 0; 0] ->
  dot omega omega * h ^ 2 <= 32 ->
  1 / 4 * quat_norm2 x
  <= quat_norm2 (quat_derivation.x1 t x omega h)
  <= quat_norm2 x.
Proof.
  intros Lx Lo Hb Hth.
  destruct x as [|q0 [|q1 [|q2 [|q3 [|b0 [|b1 [|b2 [|? ?]]]]]]]];
    try discriminate Lx.
  destruct omega as [|w0 [|w1 [|w2 [|? ?]]]]; try discriminate Lo.
  change (slice [q0; q1; q2; q3; b0; b1; b2] 4 7) with [b0; b1; b2] in Hb.
  injection Hb as -> -> ->.
  destruct (quat_x1_norm_factor q0 q1 q2 q3 0 0 0 w0 w1 w2 t h) as [E _].
  cbv zeta in E. unfold quat_norm2. rewrite E.
  set (n := dot (slice [q0; q1; q2; q3; 0; 0; 0] 0 4)
                (slice [q0; q1; q2; q3; 0; 0; 0] 0 4)).
  set (th2 := ((w0 - 0) ^ 2 + (w1 - 0) ^ 2 + (w2 - 0) ^ 2) * h ^ 2 / 4).
  assert (Hn : 0 <= n) by apply dot4_nonneg.
  pose proof (norm_factor_ge th2) as Hlo.
  assert (Ed : dot [w0; w1; w2] [w0; w1; w2]
               = (w0 - 0) ^ 2 + (w1 - 0) ^ 2 + (w2 - 0) ^ 2).
  { unfold dot. simpl. ring. }
  rewrite Ed in Hth.
  assert (H0 : 0 <= th2).
  { unfold th2. apply Rmult_le_pos; [|lra].
    apply Rmult_le_pos; [|apply pow2_ge_0].
    pose proof (pow2_ge_0 (w0 - 0)). pose proof (pow2_ge_0 (w1 - 0)).
    pose proof (pow2_ge_0 (w2 - 0)). lra. }
  assert (H8 : th2 <= 8) by (unfold th2; lra).
  pose proof (norm_factor_le th2 (conj H0 H8)) as Hhi.
  split.
  - apply Rmult_le_compat_r; assumption.
  - rewrite <- (Rmult_1_l n) at 2.
    apply Rmult_le_compat_r; assumption.
Qed.

Lemma length_quat_x1 (t : R) (x omega : vec) (dt : R) :
  length x = 7%nat -> length (quat_derivation.x1 t x omega dt) = 7%nat.
Proof.
  intros L.
  change (quat_derivation.x1 t x omega dt)
    with (fst (predict quat_eqs t x [] omega 0 0 dt)).
  apply length_predict_x; [right; left; reflexivity | exact L].
Qed.

Lemma quat_x1_bias (t : R) (x omega : vec) (dt : R) :
  slice (quat_derivation.x1 t x omega dt) 4 7 = slice x 4 7.
Proof.
  rewrite !slice_4_7_skipn. unfold quat_derivation.x1.
  rewrite (skipn_rk4 _ 4 (zeros 3)) by (intros; apply quat_xdot_tail).
  now rewrite vscale_zeros, slice_vadd_zeros.
Qed.

Lemma quat_feed_norm (e : Eqs) (msgs : list (Imu * (R * R)))
  (self : AttitudeEstimator) :
  (forall t x W omega sg srw dt,
      fst (predict e t x W omega sg srw dt)
      = quat_derivation.x1 t x omega dt) ->
  est_eqs self = e -> length (est_x self) = 7%nat ->
  slice (est_x self) 4 7 = [0; 0; 0] ->
  slow_turns (t_last_imu self) msgs ->
  (1 / 4) ^ length msgs * quat_norm2 (est_x self)
  <= quat_norm2 (est_x (fst (feed self msgs)))
  <= quat_norm2 (est_x self).
Proof.
  intros He. revert self.
  induction msgs as [|[msg [start stop]] msgs IH];
    intros self Ee Lx Hb Hs.
  - simpl. lra.
  - cbn [slow_turns] in Hs. destruct Hs as (Lo & Hth & Hs).
    cbn [feed fst length].
    set (self' := fst (imu_callback self msg start stop)).
    assert (Ex : est_x self'
                 = quat_derivation.x1 (imu_time msg) (est_x self)
                     (imu_gyro msg)
                     (compute_dt (imu_time msg) (t_last_imu self))).
    { unfold self', imu_callback. cbn [fst est_x]. rewrite Ee. apply He. }
    pose proof (quat_x1_norm_bounds (imu_time msg) (est_x self)
                  (imu_gyro msg)
                  (compute_dt (imu_time msg) (t_last_imu self))
                  Lx Lo Hb Hth) as Hstep.
    rewrite <- Ex in Hstep.
    assert (IH' : (1 / 4) ^ length msgs * quat_norm2 (est_x self')
                  <= quat_norm2 (est_x (fst (feed self' msgs)))
                  <= quat_norm2 (est_x self')).
    { apply IH.
      - exact Ee.
      - rewrite Ex. apply length_quat_x1. exact Lx.
      - rewrite Ex, quat_x1_bias. exact Hb.
      - exact Hs. }
    assert (Hp : 0 <= (1 / 4) ^ length msgs) by (apply pow_le; lra).
    change ((1 / 4) ^ S (length msgs))
      with (1 / 4 * (1 / 4) ^ length msgs).
    split; [|lra].
    apply Rle_trans
      with ((1 / 4) ^ length msgs * quat_norm2 (est_x self')); [|lra].
    rewrite (Rmult_comm (1 / 4)), Rmult_assoc.
    apply Rmult_le_compat_l; [exact Hp | lra].
Qed.

(** X17.  Over a stream of [n] messages in which no gyro reading turns
    by more than [4 sqrt 2] rad during its step, the squared norm of the
    quaternion held by the quaternion estimator and by the MEKF estimator
    never exceeds one and is at least [(1/4)^n]: nothing renormalizes
    the quaternion, but it cannot grow and is not lost. *)
Theorem quat_estimators_norm (msgs : list (Imu * (R * R))) :
  slow_turns 0 msgs ->
  let n2 := fun eqs =>
    quat_norm2 (est_x (fst (feed (AttitudeEstimator_init eqs) msgs))) in
  ((1 / 4) ^ length msgs <= n2 quat_eqs <= 1) /\
  ((1 / 4) ^ length msgs <= n2 mekf_eqs <= 1).
Proof.
  intros Hs n2. unfold n2.
  assert (E1 : quat_norm2 [1; 0; 0; 0; 0; 0; 0] = 1).
  { unfold quat_norm2.
    change (slice [1; 0; 0; 0; 0; 0; 0] 0 4) with [1; 0; 0; 0].
    unfold dot. cbn [zipWith fold_right]. ring. }
  split.
  - pose proof (quat_feed_norm quat_eqs msgs
                  (AttitudeEstimator_init quat_eqs)) as H.
    change (est_x (AttitudeEstimator_init quat_eqs))
      with [1; 0; 0; 0; 0; 0; 0] in H.
    rewrite E1, Rmult_1_r in H. apply H.
    + intros. reflexivity.
    + reflexivity.
    + reflexivity.
    + reflexivity.
    + exact Hs.
  - pose proof (quat_feed_norm mekf_eqs msgs
                  (AttitudeEstimator_init mekf_eqs)) as H.
    change (est_x (AttitudeEstimator_init mekf_eqs))
      with [1; 0; 0; 0; 0; 0; 0] in H.
    rewrite E1, Rmult_1_r in H. apply H.
    + intros. unfold mekf_eqs, mekf_derivation.eqs, predict, fst.
      apply mekf_x1_quat_x1.
    + reflexivity.
    + reflexivity.
    + reflexivity.
    + exact Hs.
Qed.

Lemma quat_estimators_norm_witness :
  let msgs :=
    [ ({| imu_time := 0; imu_gyro := [10; 10; 10] |}, (0, 0));
      ({| imu_time := 1 / 200; imu_gyro := [10; 20; 10] |}, (0, 0)) ] in
  slow_turns 0 msgs /\
  (1 / 4) ^ length msgs
  <= quat_norm2 (est_x (fst (feed (AttitudeEstimator_init quat_eqs) msgs)))
  <= 1.
Proof.
  intros msgs.
  assert (H : slow_turns 0 msgs).
  { unfold msgs. cbn [slow_turns imu_gyro imu_time length].
    unfold compute_dt, dot. cbn [zipWith fold_right].
    repeat split.
    - destruct (Rle_dec (0 - 0) 0); lra.
    - destruct (Rle_dec (1 / 200 - 0) 0); lra. }
  split; [exact H|].
  exact (proj1 (quat_estimators_norm msgs H)).
Defined.
